(** * The completion character device: a gate-and-buffer rendezvous

    A shallow embedding of the two completion drivers of the repository:

    - the Rust module [completion.rs] ([Completiondev], [RustFile],
      [CompletionData]), which couples the kernel's completion object with
      the mutex-protected 4 KiB buffer [GLOBALMEM_BUF];
    - the minimal C module [r4l_experiment/driver/tmp/completion.c]
      ([completion_read], [completion_write]).

    The kernel state the drivers touch is threaded explicitly through a
    small resumption monad with errors.  A file operation gives up the
    processor at its scheduling points (going to sleep on the completion,
    queueing for the mutex), and a step function over a table of tasks
    interleaves the stretches in between. *)

From Stdlib Require Import ZArith Lia.
From Stdlib Require Import Strings.Byte Strings.String.
From stdpp Require Import base option list gmap.

Local Open Scope Z_scope.

(** ** Machine integers and errors *)

(** [usize] and [u64] are both 64 bits wide on the x86_64 target the
    module is built for; [_offset as usize] is the cast of the source. *)
Definition USIZE_BITS : Z := 64.
Definition as_usize (x : Z) : Z := x mod 2 ^ USIZE_BITS.
Definition is_u64 (x : Z) : Prop := 0 <= x < 2 ^ 64.

(** The conversion of a [size_t] to [ssize_t] in C: the same 64 bits read
    as a signed number. *)
Definition as_ssize (x : Z) : Z :=
  let y := x mod 2 ^ 64 in
  if y <? 2 ^ 63 then y else y - 2 ^ 64.

(** The kernel error codes the module can return. *)
Inductive Error := EINVAL | EFAULT | ENOMEM | EBUSY | ENXIO.

(** [kernel::error::Result<T>]. *)
Inductive Result (A : Type) :=
| Ok (a : A)
| Err (e : Error).
Arguments Ok {A} a.
Arguments Err {A} e.

(** A task is named by its process id ([Task::current().pid()]). *)
Abbreviation pid := nat (only parsing).

(** ** The completion object (the Gate) *)

Module Completion.

Inductive gate_state := UNSIGNALED | SIGNALED.

(** Modelled from the spec: the kernel's [struct completion] and the
    functions [init_completion], [complete] and [wait_for_completion]
    (the source only calls them through [bindings::] and
    [<linux/completion.h>]; their bodies are not part of the module).
    Following the Gate of the data model: two states and a wait-queue of
    blocked callers.

    This is the specification's Gate, not a transcription of
    [kernel/sched/completion.c]: the kernel documents [complete] as waking
    one waiter and counting completions that nobody has consumed yet, and
    [complete_all] as the broadcast.  What is proved about releasing and
    about late waiters below is relative to this model; what is proved
    about where the driver calls [complete] and [wait_for_completion]
    is not. *)
Record completion := mkCompletion {
  state : gate_state;
  queue : list pid
}.

(** Modelled from the spec: [init_completion], missing from the sources.
    The Gate starts UNSIGNALED with nobody waiting. *)
Definition init_completion : completion :=
  {| state := UNSIGNALED; queue := [] |}.

(** Modelled from the spec: [wait_for_completion], missing from the
    sources.  The caller joins the wait-queue whatever the state is (an
    already SIGNALED gate is not observed; the new wait episode re-arms
    it), and sleeps for as long as it is queued. *)
Definition wait_for_completion (p : pid) (c : completion) : completion :=
  {| state := UNSIGNALED; queue := queue c ++ [p] |}.

(** Modelled from the spec: [complete], missing from the sources.  The
    Gate moves to SIGNALED and every queued waiter is released at once;
    the result also names the released tasks. *)
Definition complete (c : completion) : completion * list pid :=
  ({| state := SIGNALED; queue := [] |}, queue c).

(** A task sleeps in the Gate exactly while it sits in the queue. *)
Definition blocked (p : pid) (c : completion) : Prop := p ∈ queue c.

#[global] Instance blocked_dec p c : Decision (blocked p c).
Proof. unfold blocked. apply _. Defined.

End Completion.
Import Completion.

(** ** Kernel state seen by the module *)

(** Effects in the order the driver performs them; the log is ghost state
    that only records that order. *)
Inductive event :=
| EvComplete (woken : list pid)      (* bindings::complete *)
| EvWait (p : pid)                   (* bindings::wait_for_completion *)
| EvLock                             (* _this.inner.lock() *)
| EvUnlock                           (* the guard is dropped *)
| EvCopyIn (off n : Z)               (* _reader.read_raw into the buffer *)
| EvCopyOut (off n : Z).             (* _writer.write_raw from the buffer *)

#[global] Instance event_eq_dec : EqDecision event.
Proof. solve_decision. Defined.

Definition GLOBALMEM_SIZE : Z := 0x1000.

Record system := mkSystem {
  GLOBALMEM_BUF : list byte;               (* Mutex<[u8; GLOBALMEM_SIZE]> *)
  COMPLETION_DATA : option completion;     (* AtomicPtr; None is null *)
  cdevs : list nat;                        (* minors the module has added *)
  trace : list event
}.

Definition set_buf (b : list byte) (s : system) : system :=
  {| GLOBALMEM_BUF := b; COMPLETION_DATA := COMPLETION_DATA s;
     cdevs := cdevs s; trace := trace s |}.
Definition set_completion (c : option completion) (s : system) : system :=
  {| GLOBALMEM_BUF := GLOBALMEM_BUF s; COMPLETION_DATA := c;
     cdevs := cdevs s; trace := trace s |}.
Definition set_cdevs (ds : list nat) (s : system) : system :=
  {| GLOBALMEM_BUF := GLOBALMEM_BUF s; COMPLETION_DATA := COMPLETION_DATA s;
     cdevs := ds; trace := trace s |}.
Definition log (e : event) (s : system) : system :=
  {| GLOBALMEM_BUF := GLOBALMEM_BUF s; COMPLETION_DATA := COMPLETION_DATA s;
     cdevs := cdevs s; trace := trace s ++ [e] |}.

(** The statics as the module declares them, before it is loaded: a null
    pointer and 4096 zero bytes. *)
Definition boot : system :=
  {| GLOBALMEM_BUF := replicate (Z.to_nat GLOBALMEM_SIZE) x00;
     COMPLETION_DATA := None;
     cdevs := [];
     trace := [] |}.

(** ** Resumption monad

    A driver function runs until it returns or reaches a scheduling point:
    going to sleep on the completion, or queueing for the buffer mutex.  At
    a scheduling point it hands back the state it has produced and a
    continuation, to be resumed on whatever state the other tasks have left
    by then.  An error return keeps the effects performed before it. *)
Inductive pause :=
| Enter                  (* the system call has been issued, nothing ran yet *)
| Sleep (p : pid)        (* p sleeps in wait_for_completion *)
| Lock                   (* about to take the buffer mutex *)
| Alloc.                 (* in the allocator, which may sleep *)

Inductive Step (S A : Type) :=
| Done (s : S) (r : Result A)
| Pause (s : S) (why : pause) (k : S → Step S A).
Arguments Done {S A} s r.
Arguments Pause {S A} s why k.

Definition M (S A : Type) : Type := S → Step S A.

Fixpoint bind_step {S A B} (f : A → M S B) (st : Step S A) : Step S B :=
  match st with
  | Done s (Ok a) => f a s
  | Done s (Err e) => Done s (Err e)
  | Pause s why k => Pause s why (λ s', bind_step f (k s'))
  end.

#[global] Instance M_ret {S} : MRet (M S) := λ A a s, Done s (Ok a).
#[global] Instance M_bind {S} : MBind (M S) :=
  λ A B f m s, bind_step f (m s).

Definition throw {S A} (e : Error) : M S A := λ s, Done s (Err e).
Definition gets {S A} (f : S → A) : M S A := λ s, Done s (Ok (f s)).
Definition modify {S} (f : S → S) : M S unit := λ s, Done (f s) (Ok tt).
Definition yield {S} (why : pause) : M S unit :=
  λ s, Pause s why (λ s', Done s' (Ok tt)).
(** Rust's [?] on a value computed outside the state. *)
Definition lift_result {S A} (r : Result A) : M S A := λ s, Done s r.

(** [always Q s_in st]: however the task is interleaved with the rest of
    the system, it returns after finitely many resumptions, and [Q] relates
    the state [s_in] it was last resumed on, the state [s_out] it leaves and
    the value it returns. *)
Fixpoint always {S A} (Q : S → S → Result A → Prop)
    (s_in : S) (st : Step S A) : Prop :=
  match st with
  | Done s_out r => Q s_in s_out r
  | Pause _ _ k => ∀ s', always Q s' (k s')
  end.

(** Running a task with nobody else around: the mutex is free, and a task
    that goes to sleep is never woken. *)
Fixpoint run_alone {S A} (st : Step S A) : option (S * Result A) :=
  match st with
  | Done s r => Some (s, r)
  | Pause s (Sleep _) _ => None
  | Pause s _ k => run_alone (k s)
  end.

(** [stepwise Rel s st]: every stretch the task runs without giving up the
    processor takes the state it starts on to a [Rel]-related state. *)
Fixpoint stepwise {S A} (Rel : S → S → Prop) (s : S) (st : Step S A) : Prop :=
  match st with
  | Done s' _ => Rel s s'
  | Pause s' _ k => Rel s s' ∧ ∀ s'', stepwise Rel s'' (k s'')
  end.

(** ** The user-space side of a transfer *)

(** [kernel::io_buffer::IoBufferReader]: [len] and [read_raw], the latter
    handing over the bytes it stores through the destination pointer. *)
Class IoBufferReader (R : Type) := {
  reader_len : R → Z;
  read_raw : R → Z → Result (list byte * R)
}.

(** [kernel::io_buffer::IoBufferWriter]: [len] and [write_raw], the latter
    taking the bytes found behind the source pointer. *)
Class IoBufferWriter (W : Type) := {
  writer_len : W → Z;
  write_raw : W → list byte → Result W
}.

(** Modelled from the spec: the user-slice reader behind [write(2)], which
    the kernel crate provides.  A bounds-checked byte copy out of a byte
    sequence of its own size: the reader is the data not consumed yet. *)
#[global] Instance user_reader : IoBufferReader (list byte) := {
  reader_len r := Z.of_nat (length r);
  read_raw r n :=
    if n <=? Z.of_nat (length r)
    then Ok (take (Z.to_nat n) r, drop (Z.to_nat n) r)
    else Err EFAULT
}.

(** Modelled from the spec: the user-slice writer behind [read(2)]: the
    room left in the caller's buffer and the bytes delivered so far. *)
Record user_writer := mkWriter {
  room : Z;
  delivered : list byte
}.

#[global] Instance user_writer_io : IoBufferWriter user_writer := {
  writer_len w := room w;
  write_raw w bs :=
    if Z.of_nat (length bs) <=? room w
    then Ok {| room := room w - Z.of_nat (length bs);
               delivered := delivered w ++ bs |}
    else Err EFAULT
}.

(** ** CompletionData *)

(** [CompletionData::try_new]: the allocation may fail. *)
Definition try_new (alloc_ok : bool) : Result completion :=
  if alloc_ok then Ok init_completion else Err ENOMEM.

(** [CompletionData::set_completion_data]: publish the pointer. *)
Definition set_completion_data (data : completion) : M system unit :=
  modify (set_completion (Some data)).

(** [CompletionData::get_completion_data]: [None] while the pointer is
    null, otherwise a handle on the one published object. *)
Definition get_completion_data : M system (option completion) :=
  gets COMPLETION_DATA.

(** [bindings::complete(&completion_data.com)], on the published object. *)
Definition bindings_complete : M system unit := λ s,
  match COMPLETION_DATA s with
  | Some c =>
      let '(c', woken) := complete c in
      Done (log (EvComplete woken) (set_completion (Some c') s)) (Ok tt)
  | None => Done s (Ok tt)
  end.

(** [bindings::wait_for_completion(&completion_data.com)]: the current task
    joins the queue and sleeps. *)
Definition bindings_wait_for_completion (task : pid) : M system unit := λ s,
  match COMPLETION_DATA s with
  | Some c =>
      Pause (log (EvWait task)
               (set_completion (Some (wait_for_completion task c)) s))
            (Sleep task) (λ s', Done s' (Ok tt))
  | None => Done s (Ok tt)
  end.

(** ** RustFile and its file operations *)

(** [&'static Mutex<[u8; GLOBALMEM_SIZE]>]: the module declares a single
    static of that type. *)
Inductive static_mutex := REF_GLOBALMEM_BUF.

Record RustFile := mkRustFile { inner : static_mutex }.

(** The device node a [file::File] was opened on. *)
Record File := mkFile { minor : nat }.

(** [lock()] queues for the mutex and yields the protected array. *)
Definition lock (m : static_mutex) : M system (list byte) :=
  yield Lock ;; modify (log EvLock) ;;
  gets (match m with REF_GLOBALMEM_BUF => GLOBALMEM_BUF end).

(** Dropping the guard. *)
Definition unlock (m : static_mutex) : M system unit := modify (log EvUnlock).

(** A store through the guard. *)
Definition store (m : static_mutex) (b : list byte) : M system unit :=
  modify (match m with REF_GLOBALMEM_BUF => set_buf b end).

(** [RustFile::open]; [Box::try_new] may fail. *)
Definition open (alloc_ok : bool) (_shared : unit) (_file : File)
    : Result RustFile :=
  if alloc_ok then Ok {| inner := REF_GLOBALMEM_BUF |} else Err ENOMEM.

Section file_operations.
Context {R W : Type} `{!IoBufferReader R} `{!IoBufferWriter W}.

(** [RustFile::write].  The result pairs the byte count with the reader
    as the call leaves it. *)
Definition write (task : pid) (_this : RustFile) (_file : File)
    (_reader : R) (_offset : Z) : M system (Z * R) :=
  completion_data ← get_completion_data ;
  (if completion_data is Some _ then bindings_complete else mret tt) ;;
  buffer ← lock (inner _this) ;
  if as_usize _offset >=? GLOBALMEM_SIZE then
    unlock (inner _this) ;; throw EINVAL
  else
    let remaining_space := GLOBALMEM_SIZE - as_usize _offset in
    let data_to_write := Z.min (reader_len _reader) remaining_space in
    match read_raw _reader data_to_write with
    | Err e => unlock (inner _this) ;; throw e
    | Ok (bytes, _reader') =>
        store (inner _this)
          (list_inserts (Z.to_nat (as_usize _offset)) bytes buffer) ;;
        modify (log (EvCopyIn (as_usize _offset) data_to_write)) ;;
        unlock (inner _this) ;;
        mret (data_to_write, _reader')
    end.

(** [RustFile::read].  The result pairs the byte count with the writer
    as the call leaves it. *)
Definition read (task : pid) (_this : RustFile) (_file : File)
    (_writer : W) (_offset : Z) : M system (Z * W) :=
  completion_data ← get_completion_data ;
  (if completion_data is Some _
   then bindings_wait_for_completion task else mret tt) ;;
  buffer ← lock (inner _this) ;
  if as_usize _offset >=? GLOBALMEM_SIZE then
    unlock (inner _this) ;; mret (0, _writer)
  else
    let remaining_data := GLOBALMEM_SIZE - as_usize _offset in
    let data_to_read := Z.min (writer_len _writer) remaining_data in
    match write_raw _writer
            (take (Z.to_nat data_to_read)
               (drop (Z.to_nat (as_usize _offset)) buffer)) with
    | Err e => unlock (inner _this) ;; throw e
    | Ok _writer' =>
        modify (log (EvCopyOut (as_usize _offset) data_to_read)) ;;
        unlock (inner _this) ;;
        mret (data_to_read, _writer')
    end.

End file_operations.

(** ** Module initialisation *)

(** [chrdev::Registration<N>]: room for [reg_N] minors from [minors_start]
    on, [used] of which have been added. *)
Record Registration := mkRegistration {
  reg_name : string;
  minors_start : nat;
  reg_N : nat;
  used : nat
}.

Record Completiondev := mkCompletiondev { _dev : Registration }.

(** What the rest of the kernel answers while the module loads. *)
Record host := mkHost {
  pinned_ok : bool;            (* Registration::new_pinned allocates *)
  register_ok : nat → bool;    (* the k-th register call is accepted *)
  arc_ok : bool                (* Arc::try_new allocates *)
}.

Definition new_pinned (ok : bool) (N : nat) (name : string)
    (minors_start : nat) : Result Registration :=
  if ok
  then Ok {| reg_name := name; minors_start := minors_start;
             reg_N := N; used := 0 |}
  else Err ENOMEM.

(** Dropping the registration removes the minors it had added. *)
Definition drop_registration (reg : Registration) : M system unit :=
  modify (λ s, set_cdevs
    (filter (λ d, ¬ (minors_start reg ≤ d < minors_start reg + used reg)%nat)
       (cdevs s)) s).

(** Modelled from the spec: [Registration::register] of the kernel crate,
    followed by the [?] of the caller.  It adds the next free minor as one
    more externally visible identity of the device, and fails only when the
    registration mechanism refuses. *)
Definition register (ok : bool) (reg : Registration)
    : M system Registration :=
  if ok && bool_decide (used reg < reg_N reg)%nat then
    modify (λ s, set_cdevs (cdevs s ++ [minors_start reg + used reg]%nat) s) ;;
    mret {| reg_name := reg_name reg; minors_start := minors_start reg;
            reg_N := reg_N reg; used := S (used reg) |}
  else
    drop_registration reg ;; throw EBUSY.

(** [Completiondev::init]. *)
Definition init (h : host) (name : string) : M system Completiondev :=
  chrdev_reg ← lift_result (new_pinned (pinned_ok h) 2 name 0) ;
  chrdev_reg ← register (register_ok h 0%nat) chrdev_reg ;
  chrdev_reg ← register (register_ok h 1%nat) chrdev_reg ;
  yield Alloc ;;
  match try_new (arc_ok h) with
  | Err e => drop_registration chrdev_reg ;; throw e
  | Ok completion_data =>
      set_completion_data completion_data ;;
      mret {| _dev := chrdev_reg |}
  end.

(** ** Tasks *)

(** The character-device layer dispatches an open only to a minor the
    module has added, and then calls [RustFile::open] (here with the
    allocation of the box succeeding). *)
Definition vfs_open (minor : nat) : M system RustFile := λ s,
  if bool_decide (minor ∈ cdevs s)
  then Done s (open true tt {| minor := minor |})
  else Done s (Err ENXIO).

Inductive retval :=
| RetWrite (n : Z) (rest : list byte)
| RetRead (n : Z) (w : user_writer)
| RetInit (d : Completiondev).

(** One [write(2)] of [data] at [_offset] on a file opened on [minor]. *)
Definition sys_write (task : pid) (minor : nat) (data : list byte)
    (_offset : Z) : M system retval :=
  f ← vfs_open minor ;
  '(n, rest) ← write task f {| minor := minor |} data _offset ;
  mret (RetWrite n rest).

(** One [read(2)] into a user buffer of [count] bytes. *)
Definition sys_read (task : pid) (minor : nat) (count : Z)
    (_offset : Z) : M system retval :=
  f ← vfs_open minor ;
  '(n, w) ← read task f {| minor := minor |}
              {| room := count; delivered := [] |} _offset ;
  mret (RetRead n w).

(** Loading the module. *)
Definition load_module (h : host) (name : string) : M system retval :=
  d ← init h name ; mret (RetInit d).

Inductive thread :=
| Running (why : pause) (k : M system retval)
| Returned (r : Result retval).

Record machine := mkMachine {
  sys : system;
  tasks : gmap pid thread
}.

(** The tasks sleeping on the completion. *)
Definition sleepers (s : system) : list pid :=
  match COMPLETION_DATA s with
  | Some c => queue c
  | None => []
  end.

(** A sleeping task resumes once it has left the wait-queue; anything else
    resumes whenever it is scheduled. *)
Definition can_resume (why : pause) (s : system) : bool :=
  match why with
  | Sleep p => bool_decide (p ∉ sleepers s)
  | _ => true
  end.

Definition settle (p : pid) (st : Step system retval)
    (ts : gmap pid thread) : machine :=
  match st with
  | Done s r => {| sys := s; tasks := <[p := Returned r]> ts |}
  | Pause s why k => {| sys := s; tasks := <[p := Running why k]> ts |}
  end.

(** Scheduling task [p] runs it up to its next scheduling point. *)
Definition step (p : pid) (m : machine) : option machine :=
  match tasks m !! p with
  | Some (Running why k) =>
      if can_resume why (sys m)
      then Some (settle p (k (sys m)) (tasks m))
      else None
  | _ => None
  end.

Fixpoint run (sched : list pid) (m : machine) : option machine :=
  match sched with
  | [] => Some m
  | p :: sched' => m' ← step p m ; run sched' m'
  end.

(** The system calls and the module load a task may issue. *)
Inductive program :=
| PRead (minor : nat) (count _offset : Z)
| PWrite (minor : nat) (data : list byte) (_offset : Z)
| PLoad (h : host) (name : string).

Definition code (task : pid) (prog : program) : M system retval :=
  match prog with
  | PRead minor count _offset => sys_read task minor count _offset
  | PWrite minor data _offset => sys_write task minor data _offset
  | PLoad h name => load_module h name
  end.

(** The machine before anything ran: the statics, and each task about to
    enter its call. *)
Definition spawn (ps : list (pid * program)) : machine :=
  {| sys := boot;
     tasks := list_to_map
                ((λ pp, (pp.1, Running Enter (code pp.1 pp.2))) <$> ps) |}.

(** The machine a schedule leads to (unchanged if the schedule names a task
    that cannot run). *)
Definition after (sched : list pid) (m : machine) : machine :=
  default m (run sched m).

(** A task is blocked when it has work left and may not resume. *)
Definition is_blocked (p : pid) (m : machine) : Prop :=
  match tasks m !! p with
  | Some (Running why _) => can_resume why (sys m) = false
  | _ => False
  end.

Definition result_of (p : pid) (m : machine) : option (Result retval) :=
  match tasks m !! p with
  | Some (Returned r) => Some r
  | _ => None
  end.

(** The bytes a finished [read(2)] handed to its caller. *)
Definition bytes_read (p : pid) (m : machine) : option (Z * list byte) :=
  match result_of p m with
  | Some (Ok (RetRead n w)) => Some (n, delivered w)
  | _ => None
  end.

(** ** The minimal C driver *)

Module CDriver.

(** [struct completion_dev]; the [cdev] member plays no part here. *)
Record completion_dev := mkDev {
  completion : Completion.completion;
  dev_trace : list event
}.

(** [m_init] runs [init_completion] before the device is added. *)
Definition m_init : completion_dev :=
  {| completion := init_completion; dev_trace := [] |}.

(** [completion_read]: sleep on the completion, then report 0 bytes. *)
Definition completion_read (task : pid) (count : Z) (pos : Z)
    : M completion_dev Z := λ dev,
  Pause {| completion := wait_for_completion task (completion dev);
           dev_trace := dev_trace dev ++ [EvWait task] |}
        (Sleep task)
        (λ dev', Done dev' (Ok 0)).

(** [completion_write]: complete, then hand back [count], a [size_t], as
    the [ssize_t] the function returns. *)
Definition completion_write (task : pid) (buf : list byte) (count : Z)
    (pos : Z) : M completion_dev Z := λ dev,
  let '(c', woken) := complete (completion dev) in
  Done {| completion := c';
          dev_trace := dev_trace dev ++ [EvComplete woken] |}
       (Ok (as_ssize count)).

End CDriver.

(** ** Outcomes of the two critical sections *)

(** What the locked part of [write] does to the state it is resumed on. *)
Definition write_post (data : list byte) (off : Z)
    (s_in s_out : system) (r : Result (Z * list byte)) : Prop :=
  COMPLETION_DATA s_out = COMPLETION_DATA s_in ∧
  cdevs s_out = cdevs s_in ∧
  if decide (off < GLOBALMEM_SIZE) then
    let n := Z.min (Z.of_nat (length data)) (GLOBALMEM_SIZE - off) in
    r = Ok (n, drop (Z.to_nat n) data) ∧
    GLOBALMEM_BUF s_out =
      list_inserts (Z.to_nat off) (take (Z.to_nat n) data)
        (GLOBALMEM_BUF s_in) ∧
    trace s_out = trace s_in ++ [EvLock; EvCopyIn off n; EvUnlock]
  else
    r = Err EINVAL ∧ GLOBALMEM_BUF s_out = GLOBALMEM_BUF s_in ∧
    trace s_out = trace s_in ++ [EvLock; EvUnlock].

(** What the locked part of [read] does to the state it is resumed on. *)
Definition read_post (w : user_writer) (off : Z)
    (s_in s_out : system) (r : Result (Z * user_writer)) : Prop :=
  COMPLETION_DATA s_out = COMPLETION_DATA s_in ∧
  cdevs s_out = cdevs s_in ∧
  GLOBALMEM_BUF s_out = GLOBALMEM_BUF s_in ∧
  if decide (off < GLOBALMEM_SIZE) then
    let n := Z.min (room w) (GLOBALMEM_SIZE - off) in
    let chunk :=
      take (Z.to_nat n) (drop (Z.to_nat off) (GLOBALMEM_BUF s_in)) in
    r = Ok (n, {| room := room w - Z.of_nat (length chunk);
                  delivered := delivered w ++ chunk |}) ∧
    trace s_out = trace s_in ++ [EvLock; EvCopyOut off n; EvUnlock]
  else
    r = Ok (0, w) ∧ trace s_out = trace s_in ++ [EvLock; EvUnlock].

(** The state right after the completion call of [write]. *)
Definition signalled (s : system) : system :=
  match COMPLETION_DATA s with
  | Some c => log (EvComplete (queue c))
                (set_completion (Some (complete c).1) s)
  | None => s
  end.

(** The state right after the completion call of [read]. *)
Definition parked (task : pid) (s : system) : system :=
  match COMPLETION_DATA s with
  | Some c => log (EvWait task)
                (set_completion (Some (wait_for_completion task c)) s)
  | None => s
  end.

(** The completions a trace records, oldest first. *)
Definition signals (tr : list event) : list (list pid) :=
  omap (λ e, if e is EvComplete woken then Some woken else None) tr.

(** ** Scenarios *)

Definition hi : list byte := list_byte_of_string "hi".

(** A host on which loading succeeds. *)
Definition willing : host :=
  {| pinned_ok := true; register_ok := λ _, true; arc_ok := true |}.

(** Task 0 loads the module; tasks 1 and 2 read two bytes at offset 0, one
    through each minor; task 3 writes "hi" at offset 0; task 4 writes one
    byte at offset 4096. *)
Definition demo : machine :=
  spawn [ (0%nat, PLoad willing "completion");
          (1%nat, PRead 0 2 0);
          (2%nat, PRead 1 2 0);
          (3%nat, PWrite 0 hi 0);
          (4%nat, PWrite 1 [x01] 4096) ].

(** The module is loaded and task 1 sleeps in its [read]. *)
Definition one_sleeper : system := sys (after [0; 0; 1]%nat demo).

(** ** The two orderings at issue *)

(** A trace in which every buffer store comes before every completion. *)
Definition copy_precedes_signal (tr : list event) : Prop :=
  ∀ (i j : nat) woken off n,
    tr !! i = Some (EvComplete woken) →
    tr !! j = Some (EvCopyIn off n) → (j < i)%nat.

(** A rejected [write] that leaves the Gate alone: it fails with EINVAL,
    stores nothing and completes nothing. *)
Definition rejects_without_signal (s : system) (data : list byte)
    (off : Z) : Prop :=
  ∀ task f fl s' r,
    run_alone (write task f fl data off s) = Some (s', r) →
    r = Err EINVAL ∧
    GLOBALMEM_BUF s' = GLOBALMEM_BUF s ∧
    COMPLETION_DATA s' = COMPLETION_DATA s ∧
    signals (trace s') = signals (trace s).

(** ** Invariants of the statics *)

(** What no stretch of a file operation touches: the registered minors and
    the length of the buffer. *)
Definition keeps_statics (a b : system) : Prop :=
  cdevs b = cdevs a ∧
  length (GLOBALMEM_BUF b) = length (GLOBALMEM_BUF a).

(** Every task of the machine keeps to [Rel] in each of its stretches. *)
Definition behaves (Rel : system → system → Prop) (m : machine) : Prop :=
  ∀ p why k, tasks m !! p = Some (Running why k) → ∀ s, stepwise Rel s (k s).

(** ** The plain character device

    [samples/rust/rust_chrdev.rs] as the report modifies it: the same
    buffer behind the same mutex, without the completion. *)
Module RustChrdev.

Section file_operations.
Context {R W : Type} `{!IoBufferReader R} `{!IoBufferWriter W}.

(** [RustFile::write] of the plain character device. *)
Definition write (_this : RustFile) (_file : File)
    (_reader : R) (_offset : Z) : M system (Z * R) :=
  buffer ← lock (inner _this) ;
  if as_usize _offset >=? GLOBALMEM_SIZE then
    unlock (inner _this) ;; throw EINVAL
  else
    let remaining_space := GLOBALMEM_SIZE - as_usize _offset in
    let data_to_write := Z.min (reader_len _reader) remaining_space in
    match read_raw _reader data_to_write with
    | Err e => unlock (inner _this) ;; throw e
    | Ok (bytes, _reader') =>
        store (inner _this)
          (list_inserts (Z.to_nat (as_usize _offset)) bytes buffer) ;;
        modify (log (EvCopyIn (as_usize _offset) data_to_write)) ;;
        unlock (inner _this) ;;
        mret (data_to_write, _reader')
    end.

(** [RustFile::read] of the plain character device. *)
Definition read (_this : RustFile) (_file : File)
    (_writer : W) (_offset : Z) : M system (Z * W) :=
  buffer ← lock (inner _this) ;
  if as_usize _offset >=? GLOBALMEM_SIZE then
    unlock (inner _this) ;; mret (0, _writer)
  else
    let remaining_data := GLOBALMEM_SIZE - as_usize _offset in
    let data_to_read := Z.min (writer_len _writer) remaining_data in
    match write_raw _writer
            (take (Z.to_nat data_to_read)
               (drop (Z.to_nat (as_usize _offset)) buffer)) with
    | Err e => unlock (inner _this) ;; throw e
    | Ok _writer' =>
        modify (log (EvCopyOut (as_usize _offset) data_to_read)) ;;
        unlock (inner _this) ;;
        mret (data_to_read, _writer')
    end.

End file_operations.

End RustChrdev.

(** ** Comparing and running tasks *)

(** Two tasks that cannot be told apart: they pause at the same points with
    the same state, and return the same, however they are resumed. *)
Fixpoint same_step {S A} (a b : Step S A) : Prop :=
  match a, b with
  | Done s r, Done s' r' => s = s' ∧ r = r'
  | Pause s why k, Pause s' why' k' =>
      s = s' ∧ why = why' ∧ ∀ x, same_step (k x) (k' x)
  | _, _ => False
  end.

(** The state a call leaves when it runs alone (the state it started on if
    it goes to sleep). *)
Definition exec {A} (op : M system A) (s : system) : system :=
  match run_alone (op s) with
  | Some (s', _) => s'
  | None => s
  end.

(** What a call returns when it runs alone. *)
Definition answer {A} (op : M system A) (s : system) : option (Result A) :=
  match run_alone (op s) with
  | Some (_, r) => Some r
  | None => None
  end.

(** [max_sleeps n st]: however it is resumed, the task goes to sleep at
    most [n] times before it returns. *)
Fixpoint max_sleeps {S A} (n : nat) (st : Step S A) : Prop :=
  match st with
  | Done _ _ => True
  | Pause _ (Sleep _) k =>
      match n with
      | O => False
      | Datatypes.S n' => ∀ s', max_sleeps n' (k s')
      end
  | Pause _ _ k => ∀ s', max_sleeps n (k s')
  end.

(** The discipline of a trace, read with the mutex [held] or not at its
    start: the mutex is taken only when free and dropped only when held,
    bytes are copied only under the mutex and within the array, the
    completion is touched only outside it, and the trace ends with the
    mutex free. *)
Fixpoint disciplined (held : bool) (tr : list event) : Prop :=
  match tr with
  | [] => held = false
  | EvLock :: tr' => held = false ∧ disciplined true tr'
  | EvUnlock :: tr' => held = true ∧ disciplined false tr'
  | EvCopyIn off n :: tr' | EvCopyOut off n :: tr' =>
      held = true ∧ 0 <= off ∧ 0 <= n ∧ off + n <= GLOBALMEM_SIZE ∧
      disciplined true tr'
  | EvComplete _ :: tr' | EvWait _ :: tr' =>
      held = false ∧ disciplined false tr'
  end.

(** One stretch of code adds a disciplined piece to the trace. *)
Definition adds_disciplined (a b : system) : Prop :=
  ∃ evs, trace b = trace a ++ evs ∧ disciplined false evs.

(** A user slice none of whose pages is mapped: it announces [n] bytes
    and every copy through it faults. *)
Record unmapped := mkUnmapped { announced : Z }.

#[global] Instance unmapped_reader : IoBufferReader unmapped := {
  reader_len u := announced u;
  read_raw u n := Err EFAULT
}.

#[global] Instance unmapped_writer : IoBufferWriter unmapped := {
  writer_len u := announced u;
  write_raw u bs := Err EFAULT
}.

(** A machine in which the completion is published and nobody writes:
    every task is about to read, asleep in its read, or has returned. *)
Definition only_readers (m : machine) : Prop :=
  is_Some (COMPLETION_DATA (sys m)) ∧
  ∀ p th, tasks m !! p = Some th →
    match th with
    | Running Enter k =>
        ∃ minor count off, k = sys_read p minor count off
    | Running (Sleep q) _ => q = p ∧ p ∈ sleepers (sys m)
    | Running _ _ => False
    | Returned _ => True
    end.

(** ** The reference count behind [COMPLETION_DATA]

    [set_completion_data] and [get_completion_data] once more, this time
    with the bookkeeping of [Arc] written out: [into_raw] and [from_raw]
    turn a handle into a raw pointer and back without touching the strong
    count, [clone] adds one to it, dropping a handle takes one off. *)
Module Refcount.

Record arc_heap := mkHeap {
  strong : nat;          (* strong count of the CompletionData allocation *)
  handles : nat;         (* Arc<CompletionData> values alive *)
  published : bool       (* COMPLETION_DATA is not null *)
}.

Definition nothing : arc_heap :=
  {| strong := 0; handles := 0; published := false |}.

Definition arc_try_new (h : arc_heap) : arc_heap :=
  {| strong := 1; handles := Datatypes.S (handles h);
     published := published h |}.
Definition arc_into_raw (h : arc_heap) : arc_heap :=
  {| strong := strong h; handles := pred (handles h);
     published := published h |}.
Definition arc_from_raw (h : arc_heap) : arc_heap :=
  {| strong := strong h; handles := Datatypes.S (handles h);
     published := published h |}.
Definition arc_clone (h : arc_heap) : arc_heap :=
  {| strong := Datatypes.S (strong h); handles := Datatypes.S (handles h);
     published := published h |}.
Definition arc_drop (h : arc_heap) : arc_heap :=
  {| strong := pred (strong h); handles := pred (handles h);
     published := published h |}.

(** [CompletionData::set_completion_data]. *)
Definition set_completion_data (h : arc_heap) : arc_heap :=
  let h := arc_into_raw h in
  {| strong := strong h; handles := handles h; published := true |}.

(** [CompletionData::get_completion_data]; the boolean tells [Some] from
    [None]. *)
Definition get_completion_data (h : arc_heap) : arc_heap * bool :=
  if published h then
    let h := arc_from_raw h in      (* arc *)
    let h := arc_clone h in         (* cloned_arc *)
    let h := arc_into_raw h in      (* Arc::into_raw(arc) *)
    (h, true)
  else (h, false).

(** The tail of [Completiondev::init]. *)
Definition publish (h : arc_heap) : arc_heap :=
  set_completion_data (arc_try_new h).

(** What the file operations do to the count: [Get] is the call of
    [get_completion_data] at the head of an [if let], [Put] the end of that
    block, where the handle it bound is dropped. *)
Inductive act := Get | Put.

#[global] Instance act_eq_dec : EqDecision act.
Proof. solve_decision. Defined.

Definition perform (a : act) (h : arc_heap) : option arc_heap :=
  match a with
  | Get => Some (get_completion_data h).1
  | Put => if handles h is O then None else Some (arc_drop h)
  end.

Fixpoint perform_all (acts : list act) (h : arc_heap) : option arc_heap :=
  match acts with
  | [] => Some h
  | a :: acts' => h' ← perform a h ; perform_all acts' h'
  end.

End Refcount.

(** ** Loading and unloading the C module *)
Module CModule.

(** The device-number macros of the kernel, which the sources use and do
    not define. *)
Record kdev := mkKdev {
  MAJOR : Z → Z;
  MKDEV : Z → Z → Z
}.

(** What the kernel holds for character devices: the regions allocated
    (by first device number; all have one minor here) and the device number
    under which the module's [cdev] is live. *)
Record chrdevs := mkChrdevs {
  regions : list Z;
  cdev_at : option Z
}.

(** The statics of [completion.c]. *)
Record statics := mkStatics {
  completion_major : Z;
  completion_minor : Z;
  completion_dev : CDriver.completion_dev
}.

Definition statics0 : statics :=
  {| completion_major := 0; completion_minor := 0;
     completion_dev := CDriver.m_init |}.

(** [m_init].  [alloc] is the answer of [alloc_chrdev_region], its return
    value and the device number it stored (a region is allotted unless the
    return value is below 0), and [add] the answer of [cdev_add]. *)
Definition m_init (K : kdev) (alloc : Z * Z) (add : Z)
    (k : chrdevs) (st : statics) : Z * chrdevs * statics :=
  let st := {| completion_major := completion_major st;
               completion_minor := completion_minor st;
               completion_dev :=
                 {| CDriver.completion := init_completion;
                    CDriver.dev_trace :=
                      CDriver.dev_trace (completion_dev st) |} |} in
  let '(err, devno) := alloc in
  if err <? 0 then (err, k, st)
  else
    let k := {| regions := devno :: regions k; cdev_at := cdev_at k |} in
    let st := {| completion_major := MAJOR K devno;
                 completion_minor := completion_minor st;
                 completion_dev := completion_dev st |} in
    let devno := MKDEV K (completion_major st) (completion_minor st) in
    let err := add in
    if err =? 0
    then (0, {| regions := regions k; cdev_at := Some devno |}, st)
    else (err, k, st).

(** [m_exit]. *)
Definition m_exit (K : kdev) (k : chrdevs) (st : statics) : chrdevs :=
  let k := {| regions := regions k; cdev_at := None |} in
  let devno := MKDEV K (completion_major st) (completion_minor st) in
  {| regions := filter (λ d, d ≠ devno) (regions k); cdev_at := cdev_at k |}.

(** The macros as [<linux/kdev_t.h>] has them, with 20 bits of minor. *)
Definition linux : kdev :=
  {| MAJOR d := Z.shiftr d 20;
     MKDEV ma mi := Z.lor (Z.shiftl ma 20) mi |}.

End CModule.

(** Every copy a trace records lies within the array: it starts at or
    after byte 0, has a length that is not negative, and ends at or before
    byte 4096. *)
Definition copies_in_bounds (tr : list event) : Prop :=
  ∀ e, e ∈ tr →
    match e with
    | EvCopyIn off n | EvCopyOut off n =>
        0 <= off ∧ 0 <= n ∧ off + n <= GLOBALMEM_SIZE
    | _ => True
    end.

(** ** What the operations do to the completion *)

(** One stretch of a file operation does one of three things to the
    completion: it leaves it alone and signals nothing; it queues one task
    on the published completion; or it completes the published completion,
    which is recorded as one signal to the tasks then queued. *)
Definition gate_step (a b : system) : Prop :=
  (COMPLETION_DATA b = COMPLETION_DATA a ∧
   signals (trace b) = signals (trace a)) ∨
  (∃ c p, COMPLETION_DATA a = Some c ∧
          COMPLETION_DATA b = Some (wait_for_completion p c) ∧
          signals (trace b) = signals (trace a)) ∨
  (∃ c, COMPLETION_DATA a = Some c ∧
        COMPLETION_DATA b = Some (complete c).1 ∧
        signals (trace b) = signals (trace a) ++ [queue c]).

(** One stretch of a file operation: it moves the completion as above and
    keeps the minors and the length of the buffer. *)
Definition file_step (a b : system) : Prop :=
  gate_step a b ∧ keeps_statics a b.

(** The last stretch of a load, resumed with both minors registered: it
    returns at once, leaves the buffer alone, and either stores a fresh
    completion or gives the two minors back and leaves the pointer alone. *)
Definition finishes_load (k : M system retval) : Prop :=
  ∀ s, cdevs s = [0; 1]%nat →
    ∃ s' r, k s = Done s' r ∧
      GLOBALMEM_BUF s' = GLOBALMEM_BUF s ∧
      match r with
      | Ok v => (∃ d, v = RetInit d) ∧
                COMPLETION_DATA s' = Some init_completion ∧
                cdevs s' = [0; 1]%nat
      | Err _ => COMPLETION_DATA s' = COMPLETION_DATA s ∧ cdevs s' = []
      end.

(** A program that is a file operation, not a load. *)
Definition file_op (prog : program) : Prop :=
  match prog with
  | PLoad _ _ => False
  | _ => True
  end.

(** Where a load stands, seen from its entry [t] in the task table: not
    started (no minor, null pointer), waiting for its allocation (both
    minors, null pointer), or returned (both minors and a completion on
    success, neither on failure). *)
Definition loader_at (h : host) (name : string) (t : option thread)
    (s : system) : Prop :=
  match t with
  | Some (Running why k) =>
      COMPLETION_DATA s = None ∧
      ((cdevs s = [] ∧ k = load_module h name) ∨
       (cdevs s = [0; 1]%nat ∧ finishes_load k))
  | Some (Returned (Ok v)) =>
      (∃ d, v = RetInit d) ∧
      is_Some (COMPLETION_DATA s) ∧ cdevs s = [0; 1]%nat
  | Some (Returned (Err _)) =>
      COMPLETION_DATA s = None ∧ cdevs s = []
  | None => False
  end.

(** A machine with one loader [L]: the buffer has its 4096 bytes, the
    other tasks run file operations, and the load stands as above. *)
Definition one_loader (L : pid) (h : host) (name : string)
    (m : machine) : Prop :=
  length (GLOBALMEM_BUF (sys m)) = 4096%nat ∧
  (∀ q why k, q ≠ L → tasks m !! q = Some (Running why k) →
     ∀ s, stepwise file_step s (k s)) ∧
  loader_at h name (tasks m !! L) (sys m).

(** ** Three statements of the specification as they are worded *)

(** The module is loaded and the one task there is enters a read of 16
    bytes at offset 4096. *)
Definition lone_reader : machine :=
  {| sys := sys (after [0; 0]%nat demo);
     tasks := {[ 1%nat := Running Enter (sys_read 1%nat 0 16 4096) ]} |}.

(** Some schedule makes the read of task [p] come back with 0 bytes. *)
Definition read_comes_back_empty (m : machine) (p : pid) : Prop :=
  ∃ sched m' w,
    run sched m = Some m' ∧ result_of p m' = Some (Ok (RetRead 0 w)).

(** Whenever the write of [writer] has stored all of [data] and the read
    of [reader] has returned, the reader holds [data]. *)
Definition reader_gets_the_data (m : machine) (writer reader : pid)
    (data : list byte) : Prop :=
  ∀ sched m' n bs,
    run sched m = Some m' →
    result_of writer m' = Some (Ok (RetWrite (Z.of_nat (length data)) [])) →
    bytes_read reader m' = Some (n, bs) →
    bs = data.


(** The module is loaded, task 3 has written and signalled with nobody
    waiting, and tasks 1 and 4 are about to read and to write. *)
Definition after_a_signal : machine :=
  {| sys := sys (after [0; 0; 3; 3]%nat demo);
     tasks := {[ 1%nat := Running Enter (sys_read 1%nat 0 2 0);
                 2%nat := Running Enter (sys_read 2%nat 1 2 0);
                 4%nat := Running Enter (sys_write 4%nat 1 [x01] 4096) ]} |}.

(** ** Basic facts *)

Lemma as_usize_u64 x : is_u64 x → as_usize x = x.
Proof. intros H. unfold as_usize, USIZE_BITS. apply Z.mod_small. exact H. Qed.

Lemma as_ssize_small x : 0 <= x < 2 ^ 63 → as_ssize x = x.
Proof.
  intros H. unfold as_ssize. rewrite Z.mod_small by lia.
  destruct (Z.ltb_spec x (2 ^ 63)); lia.
Qed.

Lemma always_mono {S A} (Q Q' : S → S → Result A → Prop) :
  (∀ a b r, Q a b r → Q' a b r) →
  ∀ (st : Step S A) s, always Q s st → always Q' s st.
Proof.
  intros HQ st. induction st as [s' r|s' why k IH]; intros s; cbn.
  - apply HQ.
  - intros H s''. apply IH, H.
Qed.

(** A task that always meets [Q] meets it when it runs alone, too. *)
Lemma always_run_alone {S A} (Q : S → S → Result A → Prop) (st : Step S A) :
  ∀ s s' r, always Q s st → run_alone st = Some (s', r) → ∃ s_in, Q s_in s' r.
Proof.
  induction st as [s1 r1|s1 why k IH]; intros s s' r Hal Hrun; cbn in *.
  - inversion Hrun; subst. by exists s.
  - destruct why; try discriminate; eapply IH; eauto.
Qed.

(** An in-range block store is a splice. *)
Lemma list_inserts_split {A} (k l : list A) (i : nat) :
  (i + length k ≤ length l)%nat →
  list_inserts i k l = take i l ++ k ++ drop (i + length k) l.
Proof.
  intros Hlen. apply list_eq. intros j.
  destruct (decide (j < i)%nat) as [Hlt|Hge].
  - rewrite list_lookup_inserts_lt by done.
    rewrite lookup_app_l by (rewrite length_take; lia).
    by rewrite lookup_take_lt.
  - destruct (decide (j < i + length k)%nat) as [Hin|Hout].
    + rewrite list_lookup_inserts by lia.
      rewrite lookup_app_r by (rewrite length_take; lia).
      rewrite length_take, Nat.min_l by lia.
      by rewrite lookup_app_l by lia.
    + rewrite list_lookup_inserts_ge by lia.
      rewrite lookup_app_r by (rewrite length_take; lia).
      rewrite length_take, Nat.min_l by lia.
      rewrite lookup_app_r by lia.
      rewrite lookup_drop. f_equal. lia.
Qed.

Ltac unfold_M :=
  unfold get_completion_data, set_completion_data, gets,
    bindings_complete, bindings_wait_for_completion, lock, unlock, store,
    yield, modify, throw, lift_result, mbind, M_bind, mret, M_ret.

(** Enter a file operation and split on the published pointer. *)
Ltac enter_op s E :=
  unfold_M; cbn;
  destruct (COMPLETION_DATA s) as [?c|] eqn:E; cbn; rewrite ?E; cbn.

Lemma write_first_segment task f fl (data : list byte) off s :
  ∃ k, write task f fl data off s = Pause (signalled s) Lock k.
Proof.
  unfold write, signalled. enter_op s E; eexists; reflexivity.
Qed.

Lemma read_first_segment task f fl (w : user_writer) off s :
  ∃ k, read task f fl w off s =
       Pause (parked task s)
         (if COMPLETION_DATA s is Some _ then Sleep task else Lock) k.
Proof.
  unfold read, parked. enter_op s E; eexists; reflexivity.
Qed.

(** [write] is two stretches: the completion call, then the critical
    section, which returns. *)
Lemma write_shape task f fl (data : list byte) off s :
  is_u64 off →
  ∃ k, write task f fl data off s = Pause (signalled s) Lock k ∧
       ∀ s', ∃ s'' r, k s' = Done s'' r ∧ write_post data off s' s'' r.
Proof.
  intros Hu. unfold write, signalled. enter_op s E.
  all: eexists; split; [reflexivity|].
  all: intros s'; rewrite (as_usize_u64 _ Hu); unfold write_post.
  all: destruct f as [[]]; cbn.
  all: destruct (Z.geb_spec off GLOBALMEM_SIZE); case_decide; try lia; cbn.
  all: try (eexists _, _; split; [reflexivity|];
            cbn; rewrite <- !(assoc_L (++)); done).
  all: destruct (Z.leb_spec
         (Z.of_nat (length data) `min` (GLOBALMEM_SIZE - off))
         (Z.of_nat (length data))); try lia; cbn.
  all: eexists _, _; split; [reflexivity|].
  all: cbn; rewrite <- !(assoc_L (++)); done.
Qed.

(** The critical section of [read] returns. *)
Lemma read_section_shape (w : user_writer) off (k : M system (Z * user_writer)) :
  is_u64 off → 0 <= room w →
  (∀ s', k s' =
     (if as_usize off >=? GLOBALMEM_SIZE then
        unlock REF_GLOBALMEM_BUF ;; mret (0, w)
      else
        let remaining_data := GLOBALMEM_SIZE - as_usize off in
        let data_to_read := Z.min (writer_len w) remaining_data in
        match write_raw w
                (take (Z.to_nat data_to_read)
                   (drop (Z.to_nat (as_usize off)) (GLOBALMEM_BUF s'))) with
        | Err e => unlock REF_GLOBALMEM_BUF ;; throw e
        | Ok _writer' =>
            modify (log (EvCopyOut (as_usize off) data_to_read)) ;;
            unlock REF_GLOBALMEM_BUF ;;
            mret (data_to_read, _writer')
        end) (log EvLock s')) →
  ∀ s', ∃ s'' r, k s' = Done s'' r ∧ read_post w off s' s'' r.
Proof.
  intros Hu Hroom Hk s'. rewrite Hk. clear Hk.
  rewrite (as_usize_u64 _ Hu). unfold read_post. unfold_M. cbn.
  destruct (Z.geb_spec off GLOBALMEM_SIZE); case_decide; try lia; cbn.
  { eexists _, _; split; [reflexivity|].
    cbn; rewrite <- !(assoc_L (++)); done. }
  match goal with
  | |- context [Z.of_nat (length ?c) <=? room ?u] =>
      destruct (Z.leb_spec (Z.of_nat (length c)) (room u)) as [Hc|Hc];
      [|rewrite length_take in Hc; lia]
  end; cbn.
  eexists _, _; split; [reflexivity|].
  cbn; rewrite <- !(assoc_L (++)); done.
Qed.

(** [read] with a null pointer is one critical section; with a published
    completion it first sleeps, then queues for the mutex. *)
Lemma read_shape task f fl (w : user_writer) off s :
  is_u64 off → 0 <= room w →
  match COMPLETION_DATA s with
  | None =>
      ∃ k, read task f fl w off s = Pause s Lock k ∧
           ∀ s', ∃ s'' r, k s' = Done s'' r ∧ read_post w off s' s'' r
  | Some _ =>
      ∃ k, read task f fl w off s = Pause (parked task s) (Sleep task) k ∧
           ∀ s1, ∃ k', k s1 = Pause s1 Lock k' ∧
             ∀ s', ∃ s'' r, k' s' = Done s'' r ∧ read_post w off s' s'' r
  end.
Proof.
  intros Hu Hroom. unfold read, parked. destruct f as [[]].
  enter_op s E.
  - eexists; split; [reflexivity|]. intros s1. cbn.
    eexists; split; [reflexivity|].
    apply read_section_shape; [done..|]. intros s'. unfold_M. reflexivity.
  - eexists; split; [reflexivity|].
    apply read_section_shape; [done..|]. intros s'. unfold_M. reflexivity.
Qed.

Lemma write_meets_post task f fl (data : list byte) off s :
  is_u64 off → always (write_post data off) s (write task f fl data off s).
Proof.
  intros Hu. destruct (write_shape task f fl data off s Hu) as (k & -> & Hk).
  intros s'. destruct (Hk s') as (s'' & r & -> & Hpost). exact Hpost.
Qed.

Lemma read_meets_post task f fl (w : user_writer) off s :
  is_u64 off → 0 <= room w →
  always (read_post w off) s (read task f fl w off s).
Proof.
  intros Hu Hroom. pose proof (read_shape task f fl w off s Hu Hroom) as H.
  destruct (COMPLETION_DATA s).
  - destruct H as (k & -> & Hk). intros s1.
    destruct (Hk s1) as (k' & -> & Hk'). intros s'.
    destruct (Hk' s') as (s'' & r & -> & Hpost). exact Hpost.
  - destruct H as (k & -> & Hk). intros s'.
    destruct (Hk s') as (s'' & r & -> & Hpost). exact Hpost.
Qed.

(** ** The buffer contract of [write] and [read] *)

(** C4. For an offset below the capacity, [write] computes
    [n = min (len data) (capacity - offset)], stores exactly the first [n]
    bytes of the data at [offset] and returns [n]; data that does not fit is
    cut short, which is no error.  This holds however the call is
    interleaved with other tasks. *)
Theorem write_stores_fitting_prefix task f fl (data : list byte) off s :
  is_u64 off → off < GLOBALMEM_SIZE →
  let n := Z.min (Z.of_nat (length data)) (GLOBALMEM_SIZE - off) in
  always (λ s_in s_out r,
    r = Ok (n, drop (Z.to_nat n) data) ∧
    Z.of_nat (length (take (Z.to_nat n) data)) = n ∧
    GLOBALMEM_BUF s_out =
      list_inserts (Z.to_nat off) (take (Z.to_nat n) data)
        (GLOBALMEM_BUF s_in) ∧
    (length (GLOBALMEM_BUF s_in) = Z.to_nat GLOBALMEM_SIZE →
     ∀ i : nat, (i < Z.to_nat n)%nat →
       GLOBALMEM_BUF s_out !! (Z.to_nat off + i)%nat = data !! i))
    s (write task f fl data off s).
Proof.
  intros Hu Hlt n.
  eapply always_mono; [|apply write_meets_post; exact Hu].
  intros s_in s_out r (_ & _ & H). rewrite decide_True in H by done.
  destruct H as (-> & Hbuf & _). fold n in Hbuf.
  assert (Hn : 0 <= n) by (destruct Hu; unfold n; lia).
  assert (Hlen : length (take (Z.to_nat n) data) = Z.to_nat n)
    by (rewrite length_take; unfold n; lia).
  repeat split; [lia | done |].
  intros Hsz i Hi. rewrite Hbuf.
  rewrite list_lookup_inserts.
  - replace (Z.to_nat off + i - Z.to_nat off)%nat with i by lia.
    by rewrite lookup_take_lt.
  - lia.
  - rewrite Hsz. destruct Hu. unfold n in Hi. lia.
Qed.

(** C4, at the capacity boundary: ten bytes written at offset 4090 of the
    zeroed buffer are cut to six, and 6 is returned. *)
Lemma write_stores_fitting_prefix_4090 :
  let ten := replicate 10 x01 in
  let f := {| inner := REF_GLOBALMEM_BUF |} in
  let fl := {| minor := 0 |} in
  is_u64 4090 ∧ 4090 < GLOBALMEM_SIZE ∧
  always (λ s_in s_out r,
    r = Ok (6, replicate 4 x01) ∧
    (length (GLOBALMEM_BUF s_in) = 4096%nat →
     drop 4090 (GLOBALMEM_BUF s_out) = replicate 6 x01))
    boot (write 1%nat f fl ten 4090 boot).
Proof.
  intros ten f fl.
  assert (Hu : is_u64 4090) by (unfold is_u64; lia).
  assert (Hlt : 4090 < GLOBALMEM_SIZE) by (unfold GLOBALMEM_SIZE; lia).
  split; [exact Hu|]. split; [exact Hlt|].
  generalize (write_stores_fitting_prefix 1%nat f fl ten 4090 boot Hu Hlt).
  cbv zeta. apply always_mono.
  intros s_in s_out r (-> & _ & Hbuf & _). split; [reflexivity|].
  intros Hsz. rewrite Hbuf. unfold ten.
  change (Z.to_nat (Z.of_nat (length (replicate 10 x01))
                    `min` (GLOBALMEM_SIZE - 4090))) with 6%nat.
  change (Z.to_nat 4090) with 4090%nat.
  rewrite list_inserts_split
    by (rewrite Hsz, length_take, length_replicate; lia).
  rewrite drop_app_length' by (rewrite length_take; lia).
  rewrite length_take, length_replicate.
  rewrite drop_ge by (rewrite Hsz; lia).
  reflexivity.
Defined.

(** C10. Frame: a successful [write] changes no byte outside
    [offset, offset + n), where [n = min (len data) (capacity - offset)],
    and keeps the length of the buffer; [read] changes no byte at all.  Both
    hold for every stretch of the call, the completion call included. *)
Theorem write_read_frame task f fl (data : list byte) (w : user_writer)
    off off' s :
  is_u64 off → off < GLOBALMEM_SIZE →
  let n := Z.min (Z.of_nat (length data)) (GLOBALMEM_SIZE - off) in
  stepwise (λ a b,
    length (GLOBALMEM_BUF b) = length (GLOBALMEM_BUF a) ∧
    ∀ j : nat, (j < Z.to_nat off ∨ Z.to_nat off + Z.to_nat n ≤ j)%nat →
      GLOBALMEM_BUF b !! j = GLOBALMEM_BUF a !! j)
    s (write task f fl data off s) ∧
  stepwise (λ a b, GLOBALMEM_BUF b = GLOBALMEM_BUF a)
    s (read task f fl w off' s).
Proof.
  intros Hu Hlt n. split.
  - unfold write. enter_op s E.
    all: split; [done|].
    all: intros s'; rewrite (as_usize_u64 _ Hu).
    all: destruct f as [[]]; cbn.
    all: destruct (Z.geb_spec off GLOBALMEM_SIZE); [lia|]; cbn.
    all: destruct (Z.leb_spec
           (Z.of_nat (length data) `min` (GLOBALMEM_SIZE - off))
           (Z.of_nat (length data))); [|lia]; cbn.
    all: split; [apply length_inserts|].
    all: intros j [Hj|Hj];
           [by apply list_lookup_inserts_lt
           |apply list_lookup_inserts_ge; rewrite length_take; fold n; lia].
  - unfold read. enter_op s E.
    1: split; [done|]; intros s0; cbn.
    all: split; [done|].
    all: intros s'; destruct f as [[]]; cbn.
    all: destruct (as_usize off' >=? GLOBALMEM_SIZE); cbn; [done|].
    all: match goal with
         | |- context [Z.of_nat (length ?c) <=? room ?u] =>
             destruct (Z.of_nat (length c) <=? room u)
         end; done.
Qed.

Lemma write_read_frame_witness :
  let f := {| inner := REF_GLOBALMEM_BUF |} in
  let fl := {| minor := 0 |} in
  let hi := list_byte_of_string "hi" in
  let w := {| room := 2; delivered := [] |} in
  is_u64 5 ∧ 5 < GLOBALMEM_SIZE ∧
  stepwise (λ a b,
    length (GLOBALMEM_BUF b) = length (GLOBALMEM_BUF a) ∧
    ∀ j : nat, (j < 5 ∨ 7 ≤ j)%nat →
      GLOBALMEM_BUF b !! j = GLOBALMEM_BUF a !! j)
    boot (write 3%nat f fl hi 5 boot) ∧
  stepwise (λ a b, GLOBALMEM_BUF b = GLOBALMEM_BUF a)
    boot (read 1%nat f fl w 0 boot).
Proof.
  intros f fl hi w.
  assert (Hu : is_u64 5) by (unfold is_u64; lia).
  assert (Hlt : 5 < GLOBALMEM_SIZE) by (unfold GLOBALMEM_SIZE; lia).
  split; [exact Hu|]. split; [exact Hlt|].
  exact (write_read_frame 3%nat f fl hi w 5 0 boot Hu Hlt).
Defined.

(** C6, amended.  [write] at a valid offset stores exactly
    [n = min (len data) (capacity - offset)] bytes, in whatever state it
    takes the mutex.  A [read] at the same offset that takes the mutex
    while the buffer is as that write left it (after the write has stored,
    and before any other write) hands back those bytes unchanged: the first
    [n] bytes it delivers (all [n] of them when the caller's buffer has
    room for [n]) are the first bytes of the data.  Nothing is said of a
    reader that takes the mutex before the write does, as one released by
    the write's own signal may. *)
Theorem write_then_read_round_trip tw tr f f' fl fl' (data : list byte)
    (w : user_writer) off s :
  is_u64 off → off < GLOBALMEM_SIZE → 0 <= room w →
  let n := Z.min (Z.of_nat (length data)) (GLOBALMEM_SIZE - off) in
  let m := Z.min (room w) (GLOBALMEM_SIZE - off) in
  always (λ s_in s_w r_w,
    length (GLOBALMEM_BUF s_in) = Z.to_nat GLOBALMEM_SIZE →
    r_w = Ok (n, drop (Z.to_nat n) data) ∧
    ∀ s0, always (λ s_in' _ r_r,
      GLOBALMEM_BUF s_in' = GLOBALMEM_BUF s_w →
      ∃ got w',
        r_r = Ok (m, w') ∧ delivered w' = delivered w ++ got ∧
        Z.of_nat (length got) = m ∧
        take (Z.to_nat n) got = take (Z.to_nat (Z.min n m)) data ∧
        (n <= room w → take (Z.to_nat n) got = take (Z.to_nat n) data))
      s0 (read tr f' fl' w off s0))
    s (write tw f fl data off s).
Proof.
  intros Hu Hlt Hroom n m.
  eapply always_mono; [|apply write_meets_post; exact Hu].
  intros s_in s_w r_w (_ & _ & Hw) Hsz. rewrite decide_True in Hw by done.
  destruct Hw as (-> & Hbuf & _). fold n in Hbuf. split; [done|].
  intros s0.
  eapply always_mono; [|apply read_meets_post; assumption].
  intros s_in' s_r r_r (_ & _ & _ & Hr) Hsame.
  rewrite decide_True in Hr by done. destruct Hr as (-> & _). fold m.
  assert (Hn : 0 <= n <= GLOBALMEM_SIZE - off)
    by (destruct Hu; unfold n; lia).
  assert (Hm : 0 <= m <= GLOBALMEM_SIZE - off)
    by (destruct Hu; unfold m; lia).
  assert (Hk : length (take (Z.to_nat n) data) = Z.to_nat n)
    by (rewrite length_take; unfold n; lia).
  assert (Hdrop : drop (Z.to_nat off) (GLOBALMEM_BUF s_in') =
            take (Z.to_nat n) data ++
            drop (Z.to_nat off + Z.to_nat n) (GLOBALMEM_BUF s_in)).
  { rewrite Hsame, Hbuf.
    rewrite list_inserts_split by (rewrite Hk, Hsz; destruct Hu; lia).
    rewrite drop_app_length' by (rewrite length_take, Hsz; destruct Hu; lia).
    by rewrite Hk. }
  assert (Hpre : take (Z.to_nat n)
            (take (Z.to_nat m) (drop (Z.to_nat off) (GLOBALMEM_BUF s_in'))) =
          take (Z.to_nat (Z.min n m)) data).
  { rewrite take_take, Hdrop.
    rewrite take_app_le by (rewrite Hk; lia).
    rewrite take_take. f_equal. lia. }
  eexists _, _. split; [reflexivity|]. cbn. split; [done|].
  split; [|split; [exact Hpre|]].
  - rewrite length_take, length_drop, Hsame, Hbuf, length_inserts, Hsz.
    destruct Hu. lia.
  - intros Hfit. rewrite Hpre. f_equal. unfold m. lia.
Qed.

(** C6, amended, with the module loaded and task 1 asleep: a read that
    takes the mutex on the buffer as the write of "hello" left it returns
    "hello"; and in the run where the writer takes the mutex before the
    released reader, the reader gets "hi". *)
Lemma write_then_read_round_trip_witness :
  let f := {| inner := REF_GLOBALMEM_BUF |} in
  let fl := {| minor := 0 |} in
  let fl' := {| minor := 1 |} in
  let hello := list_byte_of_string "hello" in
  let w := {| room := 5; delivered := [] |} in
  is_u64 0 ∧ 0 < GLOBALMEM_SIZE ∧ 0 <= room w ∧
  always (λ s_in s_w r_w,
    length (GLOBALMEM_BUF s_in) = 4096%nat →
    r_w = Ok (5, []) ∧
    ∀ s0, always (λ s_in' _ r_r,
      GLOBALMEM_BUF s_in' = GLOBALMEM_BUF s_w →
      ∃ w', r_r = Ok (5, w') ∧ delivered w' = hello)
      s0 (read 1%nat f fl' w 0 s0))
    one_sleeper (write 2%nat f fl hello 0 one_sleeper) ∧
  bytes_read 1%nat (after [3; 3; 1; 1]%nat (after [0; 0; 1]%nat demo))
    = Some (2, hi).
Proof.
  intros f fl fl' hello w.
  assert (Hu : is_u64 0) by (unfold is_u64; lia).
  assert (Hlt : 0 < GLOBALMEM_SIZE) by (unfold GLOBALMEM_SIZE; lia).
  assert (Hroom : 0 <= room w) by (cbn; lia).
  split; [exact Hu|]. split; [exact Hlt|]. split; [exact Hroom|].
  split; [|vm_compute; reflexivity].
  generalize (write_then_read_round_trip 2%nat 1%nat f f fl fl' hello w 0
                one_sleeper Hu Hlt Hroom).
  cbv zeta. apply always_mono.
  intros s_in s_w r_w H Hsz. destruct (H Hsz) as [-> Hread].
  split; [reflexivity|]. intros s0. generalize (Hread s0).
  apply always_mono.
  intros s_in' s_r r_r Hr Hsame.
  destruct (Hr Hsame) as (got & w' & -> & Hdel & Hlen & _ & Hall).
  exists w'. split; [reflexivity|].
  rewrite Hdel. cbn [delivered w app].
  change (Z.to_nat _) with 5%nat in Hall.
  rewrite (take_ge got) in Hall
    by (change (Z.min _ _) with 5 in Hlen; lia).
  rewrite Hall by (cbn; lia). reflexivity.
Defined.

(** ** The completion call of the two operations *)

Lemma signalled_facts s :
  GLOBALMEM_BUF (signalled s) = GLOBALMEM_BUF s ∧
  cdevs (signalled s) = cdevs s ∧
  sleepers (signalled s) = [] ∧
  trace (signalled s) =
    trace s ++ (if COMPLETION_DATA s is Some _
                then [EvComplete (sleepers s)] else []).
Proof.
  unfold signalled, sleepers.
  destruct (COMPLETION_DATA s) as [c|] eqn:E; cbn; rewrite ?E.
  - done.
  - by rewrite app_nil_r.
Qed.

Lemma parked_facts task s :
  GLOBALMEM_BUF (parked task s) = GLOBALMEM_BUF s ∧
  cdevs (parked task s) = cdevs s ∧
  sleepers (parked task s) =
    (if COMPLETION_DATA s is Some _ then sleepers s ++ [task] else []) ∧
  trace (parked task s) =
    trace s ++ (if COMPLETION_DATA s is Some _ then [EvWait task] else []).
Proof.
  unfold parked, sleepers.
  destruct (COMPLETION_DATA s) as [c|] eqn:E; cbn; rewrite ?E.
  - done.
  - by rewrite app_nil_r.
Qed.

Lemma signals_app tr tr' : signals (tr ++ tr') = signals tr ++ signals tr'.
Proof. unfold signals. apply omap_app. Qed.

(** C9. While the completion pointer is still null, [write] completes
    nothing and [read] waits for nothing: each goes straight to the mutex
    with the state untouched, performs its usual copy and returns its usual
    count, and [read] returns without anybody waking it. *)
Theorem null_pointer_skips_the_gate task f fl (data : list byte)
    (w : user_writer) off s :
  COMPLETION_DATA s = None → is_u64 off → 0 <= room w →
  (∃ k, write task f fl data off s = Pause s Lock k) ∧
  always (write_post data off) s (write task f fl data off s) ∧
  (∃ k, read task f fl w off s = Pause s Lock k) ∧
  always (read_post w off) s (read task f fl w off s) ∧
  (∃ s' r, run_alone (write task f fl data off s) = Some (s', r) ∧
           signals (trace s') = signals (trace s)) ∧
  (∃ s' r, run_alone (read task f fl w off s) = Some (s', r) ∧
           trace s' = trace s ++
             (if decide (off < GLOBALMEM_SIZE)
              then [EvLock;
                    EvCopyOut off (Z.min (room w) (GLOBALMEM_SIZE - off));
                    EvUnlock]
              else [EvLock; EvUnlock])).
Proof.
  intros Hnull Hu Hroom.
  pose proof (write_meets_post task f fl data off s Hu) as Hw.
  pose proof (read_meets_post task f fl w off s Hu Hroom) as Hr.
  destruct (write_shape task f fl data off s Hu) as (kw & Ekw & Hkw).
  pose proof (read_shape task f fl w off s Hu Hroom) as Hshape.
  unfold signalled in Ekw. rewrite Hnull in Ekw, Hshape.
  destruct Hshape as (kr & Ekr & Hkr).
  split; [by exists kw|]. split; [exact Hw|].
  split; [by exists kr|]. split; [exact Hr|].
  rewrite Ekw, Ekr. cbn. split.
  - destruct (Hkw s) as (s' & r & -> & _ & _ & Hpost).
    exists s', r. split; [done|]. case_decide.
    + destruct Hpost as (_ & _ & ->). by rewrite signals_app, app_nil_r.
    + destruct Hpost as (_ & _ & ->). by rewrite signals_app, app_nil_r.
  - destruct (Hkr s) as (s' & r & -> & _ & _ & _ & Hpost).
    exists s', r. split; [done|]. case_decide; by destruct Hpost as [_ ->].
Qed.

Lemma null_pointer_skips_the_gate_witness :
  let f := {| inner := REF_GLOBALMEM_BUF |} in
  let fl := {| minor := 0 |} in
  let w := {| room := 2; delivered := [] |} in
  COMPLETION_DATA boot = None ∧ is_u64 0 ∧ 0 <= room w ∧
  (∃ k, write 3%nat f fl hi 0 boot = Pause boot Lock k) ∧
  (∃ k, read 1%nat f fl w 0 boot = Pause boot Lock k).
Proof.
  intros f fl w.
  assert (Hu : is_u64 0) by (unfold is_u64; lia).
  assert (Hroom : 0 <= room w) by (cbn; lia).
  split; [reflexivity|]. split; [exact Hu|]. split; [exact Hroom|].
  destruct (null_pointer_skips_the_gate 3%nat f fl hi w 0 boot
              eq_refl Hu Hroom) as (Hw & _ & Hr & _).
  exact (conj Hw Hr).
Defined.

(** ** Where the signal sits in [write] *)

(** C2, as claimed, fails: with the module loaded and task 1 asleep in
    [read], a [write] at offset 4096 is rejected with EINVAL and stores
    nothing, yet it has completed the Gate and woken task 1. *)
Lemma rejected_write_still_signals :
  ¬ rejects_without_signal one_sleeper [x01] 4096.
Proof.
  intros H.
  destruct (H 4%nat {| inner := REF_GLOBALMEM_BUF |} {| minor := 1 |}
              (log EvUnlock (log EvLock (signalled one_sleeper)))
              (Err EINVAL) eq_refl) as (_ & _ & _ & Hsig).
  vm_compute in Hsig. discriminate Hsig.
Qed.

(** C2, amended. A [write] at an offset at or past the capacity fails with
    EINVAL and stores nothing, in its completion call as in its critical
    section.  The completion call comes before the offset is looked at: if
    the pointer is published it completes the Gate once and empties the
    wait-queue, and only a null pointer means no signal. *)
Theorem rejected_write_keeps_buffer task f fl (data : list byte) off s :
  is_u64 off → GLOBALMEM_SIZE <= off →
  ∃ k, write task f fl data off s = Pause (signalled s) Lock k ∧
    GLOBALMEM_BUF (signalled s) = GLOBALMEM_BUF s ∧
    sleepers (signalled s) = [] ∧
    signals (trace (signalled s)) =
      signals (trace s) ++
      (if COMPLETION_DATA s is Some _ then [sleepers s] else []) ∧
    ∀ s', ∃ s'', k s' = Done s'' (Err EINVAL) ∧
      GLOBALMEM_BUF s'' = GLOBALMEM_BUF s' ∧
      COMPLETION_DATA s'' = COMPLETION_DATA s' ∧
      trace s'' = trace s' ++ [EvLock; EvUnlock].
Proof.
  intros Hu Hoff.
  destruct (write_shape task f fl data off s Hu) as (k & Ek & Hk).
  destruct (signalled_facts s) as (Hbuf & _ & Hq & Htr).
  exists k. split; [exact Ek|]. split; [exact Hbuf|]. split; [exact Hq|].
  split.
  - rewrite Htr, signals_app. by destruct (COMPLETION_DATA s).
  - intros s'. destruct (Hk s') as (s'' & r & Es & Hcd & _ & Hpost).
    rewrite decide_False in Hpost by lia.
    destruct Hpost as (-> & Hb & Ht). by exists s''.
Qed.

Lemma rejected_write_keeps_buffer_witness :
  let f := {| inner := REF_GLOBALMEM_BUF |} in
  let fl := {| minor := 1 |} in
  is_u64 4096 ∧ GLOBALMEM_SIZE <= 4096 ∧
  ∃ s', run_alone (write 4%nat f fl [x01] 4096 one_sleeper)
          = Some (s', Err EINVAL) ∧
        GLOBALMEM_BUF s' = GLOBALMEM_BUF one_sleeper ∧
        sleepers one_sleeper = [1%nat] ∧ sleepers s' = [].
Proof.
  intros f fl.
  assert (Hu : is_u64 4096) by (unfold is_u64; lia).
  assert (Hoff : GLOBALMEM_SIZE <= 4096) by (unfold GLOBALMEM_SIZE; lia).
  split; [exact Hu|]. split; [exact Hoff|].
  destruct (rejected_write_keeps_buffer 4%nat f fl [x01] 4096 one_sleeper
              Hu Hoff) as (k & Ek & Hbuf & Hq & _ & Hk).
  destruct (Hk (signalled one_sleeper)) as (s'' & Es & Hb & Hcd & _).
  exists s''. rewrite Ek. cbn [run_alone]. rewrite Es. cbn [run_alone].
  split; [reflexivity|]. split; [by rewrite Hb|].
  split; [reflexivity|].
  unfold sleepers in *. by rewrite Hcd.
Defined.

(** C3, as claimed, fails for the Rust module: in the trace of a [write]
    of "hi" at offset 0, with task 1 asleep in [read], the completion is
    logged before the store into the buffer, not after it. *)
Lemma rust_write_signals_before_storing :
  ∃ s', run_alone (write 3%nat {| inner := REF_GLOBALMEM_BUF |}
                     {| minor := 0 |} hi 0 one_sleeper)
          = Some (s', Ok (2, [])) ∧
        drop (length (trace one_sleeper)) (trace s') =
          [EvComplete [1%nat]; EvLock; EvCopyIn 0 2; EvUnlock] ∧
        ¬ copy_precedes_signal (trace s').
Proof.
  eexists. split; [vm_compute; reflexivity|]. split; [reflexivity|].
  intros H. specialize (H 1%nat 3%nat [1%nat] 0 2 eq_refl eq_refl). lia.
Qed.

(** The race the ordering leaves open: task 1, released by the signal of
    task 3, takes the mutex first and reads two zero bytes, although the
    [write] that woke it goes on to store "hi" and to return 2. *)
Lemma released_reader_can_miss_the_data :
  let m := after [0; 0; 1; 3; 1; 1; 3]%nat demo in
  run [0; 0; 1; 3; 1; 1; 3]%nat demo = Some m ∧
  bytes_read 1%nat m = Some (2, [x00; x00]) ∧
  result_of 3%nat m = Some (Ok (RetWrite 2 [])) ∧
  take 2 (GLOBALMEM_BUF (sys m)) = hi.
Proof. vm_compute. repeat split; reflexivity. Qed.

(** C3, amended. Both variants signal first.  The Rust [write] completes
    the Gate in its opening stretch, with the buffer untouched, and only
    then queues for the mutex and stores the data, so a reader released by
    the signal may run before the data is there.  The C [completion_write]
    completes the Gate and returns [count] as an [ssize_t] ([count] itself
    below 2^63); it has no buffer and no lock. *)
Theorem both_variants_signal_first task f fl (data buf : list byte)
    off count pos s c dev :
  COMPLETION_DATA s = Some c → is_u64 off → off < GLOBALMEM_SIZE →
  let n := Z.min (Z.of_nat (length data)) (GLOBALMEM_SIZE - off) in
  (∃ k s1, write task f fl data off s = Pause s1 Lock k ∧
     trace s1 = trace s ++ [EvComplete (queue c)] ∧
     GLOBALMEM_BUF s1 = GLOBALMEM_BUF s ∧
     ∀ s', ∃ s'' rest, k s' = Done s'' (Ok (n, rest)) ∧
       trace s'' = trace s' ++ [EvLock; EvCopyIn off n; EvUnlock] ∧
       GLOBALMEM_BUF s'' =
         list_inserts (Z.to_nat off) (take (Z.to_nat n) data)
           (GLOBALMEM_BUF s')) ∧
  CDriver.completion_write task buf count pos dev =
    Done {| CDriver.completion := (complete (CDriver.completion dev)).1;
            CDriver.dev_trace :=
              CDriver.dev_trace dev ++
              [EvComplete (queue (CDriver.completion dev))] |}
         (Ok (as_ssize count)) ∧
  (0 <= count < 2 ^ 63 → as_ssize count = count).
Proof.
  intros Hpub Hu Hlt n. split; [|split; [reflexivity|apply as_ssize_small]].
  destruct (write_shape task f fl data off s Hu) as (k & Ek & Hk).
  destruct (signalled_facts s) as (Hbuf & _ & _ & Htr).
  exists k, (signalled s). split; [exact Ek|].
  split; [rewrite Htr; unfold sleepers; by rewrite Hpub|].
  split; [exact Hbuf|].
  intros s'. destruct (Hk s') as (s'' & r & Es & _ & _ & Hpost).
  rewrite decide_True in Hpost by done.
  destruct Hpost as (-> & Hb & Ht). by eexists _, _.
Qed.

Lemma both_variants_signal_first_witness :
  let f := {| inner := REF_GLOBALMEM_BUF |} in
  let fl := {| minor := 0 |} in
  COMPLETION_DATA one_sleeper = Some (wait_for_completion 1 init_completion) ∧
  is_u64 0 ∧ 0 < GLOBALMEM_SIZE ∧
  ∃ k s1, write 3%nat f fl hi 0 one_sleeper = Pause s1 Lock k ∧
    trace s1 = trace one_sleeper ++ [EvComplete [1%nat]] ∧
    GLOBALMEM_BUF s1 = GLOBALMEM_BUF one_sleeper.
Proof.
  intros f fl.
  assert (Hu : is_u64 0) by (unfold is_u64; lia).
  assert (Hlt : 0 < GLOBALMEM_SIZE) by (unfold GLOBALMEM_SIZE; lia).
  split; [reflexivity|]. split; [exact Hu|]. split; [exact Hlt|].
  destruct (both_variants_signal_first 3%nat f fl hi [] 0 0 0 one_sleeper
              (wait_for_completion 1 init_completion) CDriver.m_init
              eq_refl Hu Hlt) as [(k & s1 & Ek & Ht & Hb & _) _].
  exists k, s1. split; [exact Ek|]. split; [exact Ht|exact Hb].
Defined.

(** ** The Gate seen from the task table *)

Lemma sys_write_first_segment task minor (data : list byte) off s :
  minor ∈ cdevs s →
  ∃ k, sys_write task minor data off s = Pause (signalled s) Lock k.
Proof.
  intros Hin. unfold sys_write, vfs_open, open, mbind, M_bind.
  rewrite bool_decide_true by done. cbn.
  destruct (write_first_segment task {| inner := REF_GLOBALMEM_BUF |}
              {| minor := minor |} data off s) as [k ->].
  cbn. eexists; reflexivity.
Qed.

Lemma sys_read_first_segment task minor count off s :
  minor ∈ cdevs s →
  ∃ k, sys_read task minor count off s =
       Pause (parked task s)
         (if COMPLETION_DATA s is Some _ then Sleep task else Lock) k.
Proof.
  intros Hin. unfold sys_read, vfs_open, open, mbind, M_bind.
  rewrite bool_decide_true by done. cbn.
  destruct (read_first_segment task {| inner := REF_GLOBALMEM_BUF |}
              {| minor := minor |} {| room := count; delivered := [] |}
              off s) as [k ->].
  cbn. eexists; reflexivity.
Qed.

Lemma nobody_sleeps_nobody_blocked q m :
  sleepers (sys m) = [] → ¬ is_blocked q m.
Proof.
  unfold is_blocked. intros Hq.
  destruct (tasks m !! q) as [[why k|r]|]; [|tauto..].
  destruct why; cbn; try discriminate.
  rewrite Hq, bool_decide_true; [discriminate|]. apply not_elem_of_nil.
Qed.

(** C1. A task that enters [write] on a registered minor performs, in its
    first stretch, one completion of the Gate.  That single signal releases
    every task blocked at that moment: the wait-queue it wakes is the whole
    queue and is left empty, every task that was blocked can be scheduled
    again, and no other task is touched.  The C [completion_write] wakes its
    whole queue in the same way and hands back [count] as an [ssize_t]. *)
Theorem one_signal_releases_every_sleeper m p minor (data : list byte) off :
  tasks m !! p = Some (Running Enter (sys_write p minor data off)) →
  minor ∈ cdevs (sys m) →
  (∃ m' k, step p m = Some m' ∧
     sys m' = signalled (sys m) ∧
     tasks m' = <[p := Running Lock k]> (tasks m) ∧
     signals (trace (sys m')) =
       signals (trace (sys m)) ++
       (if COMPLETION_DATA (sys m) is Some _
        then [sleepers (sys m)] else []) ∧
     sleepers (sys m') = [] ∧
     ∀ q, is_blocked q m →
       tasks m' !! q = tasks m !! q ∧ ¬ is_blocked q m' ∧
       is_Some (step q m')) ∧
  (∀ c, (complete c).2 = queue c ∧ queue (complete c).1 = []) ∧
  (∀ task buf count pos dev, ∃ dev',
     CDriver.completion_write task buf count pos dev
       = Done dev' (Ok (as_ssize count)) ∧
     (0 <= count < 2 ^ 63 → as_ssize count = count) ∧
     queue (CDriver.completion dev') = [] ∧
     CDriver.dev_trace dev' =
       CDriver.dev_trace dev ++
       [EvComplete (queue (CDriver.completion dev))]).
Proof.
  intros Hp Hminor. split; [|split].
  - destruct (sys_write_first_segment p minor data off (sys m) Hminor)
      as [k Ek].
    destruct (signalled_facts (sys m)) as (_ & _ & Hq & Htr).
    exists {| sys := signalled (sys m);
              tasks := <[p := Running Lock k]> (tasks m) |}, k.
    split; [unfold step; rewrite Hp; cbn; by rewrite Ek|].
    split; [done|]. split; [done|]. cbn [sys tasks].
    split; [rewrite Htr, signals_app; by destruct (COMPLETION_DATA (sys m))|].
    split; [exact Hq|].
    intros q Hblocked.
    assert (Hne : p ≠ q).
    { intros <-. unfold is_blocked in Hblocked. rewrite Hp in Hblocked.
      discriminate Hblocked. }
    assert (Hsame : <[p := Running Lock k]> (tasks m) !! q = tasks m !! q)
      by (by rewrite lookup_insert_ne).
    split; [exact Hsame|].
    split; [by apply nobody_sleeps_nobody_blocked|].
    unfold step, is_blocked in *. cbn [sys tasks]. rewrite Hsame.
    destruct (tasks m !! q) as [[why kq|r]|]; [|tauto..].
    destruct why; try discriminate Hblocked. cbn [can_resume].
    rewrite Hq, bool_decide_true by apply not_elem_of_nil. by eexists.
  - intros c. done.
  - intros task buf count pos dev. eexists. split; [reflexivity|].
    split; [apply as_ssize_small|done].
Qed.

(** C1 on the scenario of the specification: tasks 1 and 2 are both
    blocked in [read] at offset 0; the single [write] of "hi" by task 3
    leaves neither of them blocked, and both go on to read "hi". *)
Lemma one_signal_releases_every_sleeper_witness :
  let m := after [0; 0; 1; 2]%nat demo in
  tasks m !! 3%nat = Some (Running Enter (sys_write 3%nat 0 hi 0)) ∧
  0%nat ∈ cdevs (sys m) ∧
  is_blocked 1%nat m ∧ is_blocked 2%nat m ∧
  (∃ m', step 3%nat m = Some m' ∧
     signals (trace (sys m')) = [[1; 2]%nat] ∧
     ¬ is_blocked 1%nat m' ∧ ¬ is_blocked 2%nat m') ∧
  let m'' := after [3; 3; 1; 1; 2; 2]%nat m in
  bytes_read 1%nat m'' = Some (2, hi) ∧ bytes_read 2%nat m'' = Some (2, hi).
Proof.
  intros m.
  assert (Hp : tasks m !! 3%nat = Some (Running Enter (sys_write 3%nat 0 hi 0)))
    by reflexivity.
  assert (Hminor : 0%nat ∈ cdevs (sys m)) by (vm_compute; left).
  assert (H1 : is_blocked 1%nat m) by reflexivity.
  assert (H2 : is_blocked 2%nat m) by reflexivity.
  split; [exact Hp|]. split; [exact Hminor|].
  split; [exact H1|]. split; [exact H2|].
  split; [|split; reflexivity].
  destruct (one_signal_releases_every_sleeper m 3%nat 0%nat hi 0 Hp Hminor)
    as [(m' & k & Hstep & _ & _ & Hsig & _ & Hrel) _].
  exists m'. split; [exact Hstep|]. split; [exact Hsig|].
  split; [exact (proj1 (proj2 (Hrel 1%nat H1)))
         |exact (proj1 (proj2 (Hrel 2%nat H2)))].
Defined.

(** ** Stretches and runs *)

Lemma stepwise_from {S A} (Rel : S → S → Prop) :
  (∀ a b c, Rel a b → Rel b c → Rel a c) →
  ∀ (st : Step S A) s s1, Rel s s1 → stepwise Rel s1 st → stepwise Rel s st.
Proof.
  intros Htr st s s1 H01. destruct st as [s2 r|s2 why k]; cbn.
  - by apply Htr.
  - intros [H12 Hk]. split; [by eapply Htr|exact Hk].
Qed.

Lemma stepwise_bind {S A B} (Rel : S → S → Prop) (f : A → M S B) :
  (∀ a b c, Rel a b → Rel b c → Rel a c) →
  (∀ a s, stepwise Rel s (f a s)) →
  ∀ (st : Step S A) s, stepwise Rel s st → stepwise Rel s (bind_step f st).
Proof.
  intros Htr Hf st. induction st as [s1 [a|e]|s1 why k IH]; intros s; cbn.
  - intros H. eapply stepwise_from; [exact Htr|exact H|apply Hf].
  - done.
  - intros [H Hk]. split; [exact H|]. intros s''. apply IH, Hk.
Qed.

Lemma stepwise_weaken {S A} (Rel Rel' : S → S → Prop) :
  (∀ a b, Rel a b → Rel' a b) →
  ∀ (st : Step S A) s, stepwise Rel s st → stepwise Rel' s st.
Proof.
  intros Hw st. induction st as [s1 r|s1 why k IH]; intros s; cbn.
  - apply Hw.
  - intros [H Hk]. split; [by apply Hw|]. intros s''. apply IH, Hk.
Qed.

Lemma step_behaves Rel m p m' :
  behaves Rel m → step p m = Some m' → Rel (sys m) (sys m') ∧ behaves Rel m'.
Proof.
  unfold step. intros Hb Hstep.
  destruct (tasks m !! p) as [[why k|r]|] eqn:Hp; try discriminate.
  destruct (can_resume why (sys m)); try discriminate.
  pose proof (Hb p why k Hp (sys m)) as Hk.
  injection Hstep as <-.
  destruct (k (sys m)) as [s' r|s' why' k']; cbn in *.
  - split; [exact Hk|]. intros q wq kq. cbn.
    destruct (decide (p = q)) as [<-|Hne].
    + rewrite lookup_insert_eq. discriminate.
    + rewrite lookup_insert_ne by done. apply Hb.
  - destruct Hk as [Hrel Hk']. split; [exact Hrel|]. intros q wq kq. cbn.
    destruct (decide (p = q)) as [<-|Hne].
    + rewrite lookup_insert_eq. intros [= <- <-]. exact Hk'.
    + rewrite lookup_insert_ne by done. apply Hb.
Qed.

Lemma run_behaves Rel sched :
  (∀ s, Rel s s) → (∀ a b c, Rel a b → Rel b c → Rel a c) →
  ∀ m m', behaves Rel m → run sched m = Some m' →
          Rel (sys m) (sys m') ∧ behaves Rel m'.
Proof.
  intros Hrefl Htr. induction sched as [|p sched IH]; intros m m' Hb; cbn.
  - intros [= <-]. by split.
  - destruct (step p m) as [m1|] eqn:Hstep; cbn; [|discriminate].
    intros Hrun. destruct (step_behaves Rel m p m1 Hb Hstep) as [H1 Hb1].
    destruct (IH m1 m' Hb1 Hrun) as [H2 Hb2]. split; [by eapply Htr|done].
Qed.

(** ** The completion module against the plain character device *)

Lemma same_step_refl {S A} (st : Step S A) : same_step st st.
Proof. induction st as [s r|s why k IH]; cbn; auto. Qed.

(** [write] of the completion module is the completion call followed by
    the [write] of the plain character device: after the signal the two
    pause and return alike, whatever reader they are given and however they
    are resumed. *)
Theorem write_is_signal_then_plain_write {R} `{!IoBufferReader R}
    task f fl (rd : R) off s :
  same_step (write task f fl rd off s)
            (RustChrdev.write f fl rd off (signalled s)).
Proof.
  unfold write, RustChrdev.write, signalled. enter_op s E.
  all: split; [done|]; split; [done|].
  all: intros s'; apply same_step_refl.
Qed.

(** [read] of the completion module is the [read] of the plain character
    device behind the wait: with a null pointer the two cannot be told
    apart; with a published completion the task first sleeps, and whatever
    state it is woken on it goes on exactly as the plain [read] would from
    there. *)
Theorem read_is_wait_then_plain_read {W} `{!IoBufferWriter W}
    task f fl (w : W) off s :
  match COMPLETION_DATA s with
  | None => same_step (read task f fl w off s) (RustChrdev.read f fl w off s)
  | Some _ =>
      ∃ k, read task f fl w off s = Pause (parked task s) (Sleep task) k ∧
           ∀ s1, same_step (k s1) (RustChrdev.read f fl w off s1)
  end.
Proof.
  unfold read, RustChrdev.read, parked. enter_op s E.
  - eexists. split; [reflexivity|]. intros s1. cbn.
    split; [done|]; split; [done|]. intros s'. apply same_step_refl.
  - split; [done|]; split; [done|]. intros s'. apply same_step_refl.
Qed.

(** ** Sequences of plain writes and reads *)

Lemma plain_write_shape f fl (data : list byte) off s :
  is_u64 off →
  ∃ k, RustChrdev.write f fl data off s = Pause s Lock k ∧
       ∀ s', ∃ s'' r, k s' = Done s'' r ∧ write_post data off s' s'' r.
Proof.
  intros Hu. unfold RustChrdev.write. unfold_M. cbn.
  eexists; split; [reflexivity|].
  intros s'; rewrite (as_usize_u64 _ Hu); unfold write_post.
  destruct f as [[]]; cbn.
  destruct (Z.geb_spec off GLOBALMEM_SIZE); case_decide; try lia; cbn.
  { eexists _, _; split; [reflexivity|].
    cbn; rewrite <- !(assoc_L (++)); done. }
  destruct (Z.leb_spec
         (Z.of_nat (length data) `min` (GLOBALMEM_SIZE - off))
         (Z.of_nat (length data))); try lia; cbn.
  eexists _, _; split; [reflexivity|].
  cbn; rewrite <- !(assoc_L (++)); done.
Qed.

Lemma plain_read_shape f fl (w : user_writer) off s :
  is_u64 off → 0 <= room w →
  ∃ k, RustChrdev.read f fl w off s = Pause s Lock k ∧
       ∀ s', ∃ s'' r, k s' = Done s'' r ∧ read_post w off s' s'' r.
Proof.
  intros Hu Hroom. unfold RustChrdev.read. destruct f as [[]].
  unfold_M. cbn. eexists; split; [reflexivity|].
  apply read_section_shape; [done..|]. intros s'. unfold_M. reflexivity.
Qed.

(** The number of bytes a write of [data] at [off] stores. *)
Lemma plain_write_alone f fl (data : list byte) off s :
  is_u64 off →
  let n := Z.min (Z.of_nat (length data)) (GLOBALMEM_SIZE - off) in
  GLOBALMEM_BUF (exec (RustChrdev.write f fl data off) s) =
    (if decide (off < GLOBALMEM_SIZE)
     then list_inserts (Z.to_nat off) (take (Z.to_nat n) data)
            (GLOBALMEM_BUF s)
     else GLOBALMEM_BUF s) ∧
  answer (RustChrdev.write f fl data off) s =
    Some (if decide (off < GLOBALMEM_SIZE)
          then Ok (n, drop (Z.to_nat n) data) else Err EINVAL).
Proof.
  intros Hu n. unfold exec, answer.
  destruct (plain_write_shape f fl data off s Hu) as (k & -> & Hk).
  cbn. destruct (Hk s) as (s' & r & -> & _ & _ & Hpost). cbn.
  case_decide.
  - by destruct Hpost as (-> & -> & _).
  - by destruct Hpost as (-> & -> & _).
Qed.

Lemma plain_read_alone f fl (w : user_writer) off s :
  is_u64 off → 0 <= room w →
  let n := Z.min (room w) (GLOBALMEM_SIZE - off) in
  let chunk := take (Z.to_nat n) (drop (Z.to_nat off) (GLOBALMEM_BUF s)) in
  GLOBALMEM_BUF (exec (RustChrdev.read f fl w off) s) = GLOBALMEM_BUF s ∧
  answer (RustChrdev.read f fl w off) s =
    Some (if decide (off < GLOBALMEM_SIZE)
          then Ok (n, {| room := room w - Z.of_nat (length chunk);
                         delivered := delivered w ++ chunk |})
          else Ok (0, w)).
Proof.
  intros Hu Hroom n chunk. unfold exec, answer.
  destruct (plain_read_shape f fl w off s Hu Hroom) as (k & -> & Hk).
  cbn. destruct (Hk s) as (s' & r & -> & _ & _ & Hbuf & Hpost). cbn.
  split; [exact Hbuf|]. case_decide.
  - by destruct Hpost as (-> & _).
  - by destruct Hpost as (-> & _).
Qed.

(** Reading a block store index by index. *)
Lemma lookup_inserts_cases {A} (k l : list A) (i x : nat) :
  list_inserts i k l !! x =
    if decide (i ≤ x < i + length k ∧ x < length l)%nat
    then k !! (x - i)%nat else l !! x.
Proof.
  case_decide as H.
  - destruct H. by apply list_lookup_inserts.
  - destruct (decide (x < length l)%nat) as [Hx|Hx].
    + destruct (decide (x < i)%nat).
      * by apply list_lookup_inserts_lt.
      * apply list_lookup_inserts_ge. lia.
    + rewrite !lookup_ge_None_2; [done|lia|rewrite length_inserts; lia].
Qed.

Lemma inserts_overwrite {A} (k1 k2 l : list A) (i : nat) :
  (length k1 ≤ length k2)%nat →
  list_inserts i k2 (list_inserts i k1 l) = list_inserts i k2 l.
Proof.
  intros Hlen. apply list_eq. intros x.
  rewrite !lookup_inserts_cases, length_inserts.
  repeat case_decide; try done; lia.
Qed.

Lemma inserts_commute {A} (k1 k2 l : list A) (i j : nat) :
  (i + length k1 ≤ j)%nat →
  list_inserts j k2 (list_inserts i k1 l) =
  list_inserts i k1 (list_inserts j k2 l).
Proof.
  intros Hlen. apply list_eq. intros x.
  rewrite !lookup_inserts_cases, !length_inserts.
  repeat case_decide; try done; lia.
Qed.

(** The last write wins: a write at the offset of an earlier, no longer one
    leaves the buffer as if the earlier write had not happened. *)
Theorem plain_write_overwrites f fl fl' (d1 d2 : list byte) off s :
  is_u64 off → (length d1 ≤ length d2)%nat →
  GLOBALMEM_BUF (exec (RustChrdev.write f fl' d2 off)
                   (exec (RustChrdev.write f fl d1 off) s)) =
  GLOBALMEM_BUF (exec (RustChrdev.write f fl' d2 off) s).
Proof.
  intros Hu Hlen.
  destruct (plain_write_alone f fl' d2 off
              (exec (RustChrdev.write f fl d1 off) s) Hu) as [-> _].
  destruct (plain_write_alone f fl d1 off s Hu) as [-> _].
  destruct (plain_write_alone f fl' d2 off s Hu) as [-> _].
  case_decide; [|done].
  apply inserts_overwrite. rewrite !length_take. lia.
Qed.

Lemma plain_write_overwrites_witness :
  let f := {| inner := REF_GLOBALMEM_BUF |} in
  let fl := {| minor := 0 |} in
  is_u64 4 ∧ (length hi ≤ length (list_byte_of_string "hello"))%nat ∧
  take 5 (drop 4 (GLOBALMEM_BUF
    (exec (RustChrdev.write f fl (list_byte_of_string "hello") 4)
       (exec (RustChrdev.write f fl hi 4) boot)))) =
  list_byte_of_string "hello".
Proof.
  intros f fl.
  assert (Hu : is_u64 4) by (unfold is_u64; lia).
  assert (Hlen : (length hi ≤ length (list_byte_of_string "hello"))%nat)
    by (cbn; lia).
  split; [exact Hu|]. split; [exact Hlen|].
  rewrite (plain_write_overwrites f fl fl hi (list_byte_of_string "hello")
             4 boot Hu Hlen).
  vm_compute. reflexivity.
Defined.

(** Writes to ranges that do not overlap commute: the buffer does not
    remember in which order they came. *)
Theorem plain_writes_apart_commute f fl fl' (d1 d2 : list byte)
    off1 off2 s :
  is_u64 off1 → is_u64 off2 →
  off1 + Z.min (Z.of_nat (length d1)) (GLOBALMEM_SIZE - off1) <= off2 →
  GLOBALMEM_BUF (exec (RustChrdev.write f fl' d2 off2)
                   (exec (RustChrdev.write f fl d1 off1) s)) =
  GLOBALMEM_BUF (exec (RustChrdev.write f fl d1 off1)
                   (exec (RustChrdev.write f fl' d2 off2) s)).
Proof.
  intros Hu1 Hu2 Hapart.
  destruct (plain_write_alone f fl' d2 off2
              (exec (RustChrdev.write f fl d1 off1) s) Hu2) as [-> _].
  destruct (plain_write_alone f fl d1 off1
              (exec (RustChrdev.write f fl' d2 off2) s) Hu1) as [-> _].
  destruct (plain_write_alone f fl d1 off1 s Hu1) as [-> _].
  destruct (plain_write_alone f fl' d2 off2 s Hu2) as [-> _].
  repeat case_decide; try done.
  apply inserts_commute. rewrite length_take.
  destruct Hu1, Hu2. lia.
Qed.

Lemma plain_writes_apart_commute_witness :
  let f := {| inner := REF_GLOBALMEM_BUF |} in
  let fl := {| minor := 0 |} in
  is_u64 0 ∧ is_u64 2 ∧
  0 + Z.min (Z.of_nat (length hi)) (GLOBALMEM_SIZE - 0) <= 2 ∧
  GLOBALMEM_BUF (exec (RustChrdev.write f fl [x01] 2)
                   (exec (RustChrdev.write f fl hi 0) boot)) =
  GLOBALMEM_BUF (exec (RustChrdev.write f fl hi 0)
                   (exec (RustChrdev.write f fl [x01] 2) boot)).
Proof.
  intros f fl.
  assert (Hu1 : is_u64 0) by (unfold is_u64; lia).
  assert (Hu2 : is_u64 2) by (unfold is_u64; lia).
  assert (Hap : 0 + Z.min (Z.of_nat (length hi)) (GLOBALMEM_SIZE - 0) <= 2)
    by (cbn; lia).
  split; [exact Hu1|]. split; [exact Hu2|]. split; [exact Hap|].
  exact (plain_writes_apart_commute f fl fl hi [x01] 0 2 boot Hu1 Hu2 Hap).
Defined.

(** Writing in two pieces: when the first piece ends inside the buffer,
    writing [d1] and then [d2] right behind it stores what one write of
    [d1 ++ d2] stores, the two counts add up to the count of the single
    write, and the same bytes are left over. *)
Theorem plain_write_in_two_pieces f fl (d1 d2 : list byte) off s :
  is_u64 off → off + Z.of_nat (length d1) < GLOBALMEM_SIZE →
  let off2 := off + Z.of_nat (length d1) in
  let s1 := exec (RustChrdev.write f fl d1 off) s in
  GLOBALMEM_BUF (exec (RustChrdev.write f fl d2 off2) s1) =
    GLOBALMEM_BUF (exec (RustChrdev.write f fl (d1 ++ d2) off) s) ∧
  answer (RustChrdev.write f fl d1 off) s
    = Some (Ok (Z.of_nat (length d1), [])) ∧
  ∃ n2 rest,
    answer (RustChrdev.write f fl d2 off2) s1 = Some (Ok (n2, rest)) ∧
    answer (RustChrdev.write f fl (d1 ++ d2) off) s
      = Some (Ok (Z.of_nat (length d1) + n2, rest)).
Proof.
  intros Hu Hfit off2 s1.
  assert (Hu2 : is_u64 off2) by (unfold is_u64, off2, GLOBALMEM_SIZE in *; lia).
  destruct (plain_write_alone f fl d2 off2 s1 Hu2) as [-> ->].
  destruct (plain_write_alone f fl (d1 ++ d2) off s Hu) as [-> ->].
  unfold s1.
  destruct (plain_write_alone f fl d1 off s Hu) as [-> ->].
  destruct Hu as [Hoff _].
  rewrite !decide_True by (unfold off2; lia).
  set (n2 := Z.min (Z.of_nat (length d2)) (GLOBALMEM_SIZE - off2)).
  assert (Hn1 : Z.min (Z.of_nat (length d1)) (GLOBALMEM_SIZE - off)
                = Z.of_nat (length d1)) by lia.
  assert (Hn : Z.min (Z.of_nat (length (d1 ++ d2))) (GLOBALMEM_SIZE - off)
               = Z.of_nat (length d1) + n2)
    by (rewrite length_app; unfold n2, off2; lia).
  rewrite Hn1, Hn.
  assert (Hn2 : 0 <= n2) by (unfold n2, off2; lia).
  replace (Z.to_nat (Z.of_nat (length d1) + n2))
    with (length d1 + Z.to_nat n2)%nat by lia.
  rewrite Nat2Z.id, firstn_all, take_app_add, drop_app_add, drop_all.
  split; [|split; [done|by eexists _, _]].
  rewrite list_inserts_app_l. f_equal. unfold off2. lia.
Qed.

Lemma plain_write_in_two_pieces_witness :
  let f := {| inner := REF_GLOBALMEM_BUF |} in
  let fl := {| minor := 0 |} in
  is_u64 4090 ∧ 4090 + Z.of_nat (length hi) < GLOBALMEM_SIZE ∧
  answer (RustChrdev.write f fl (replicate 8 x01) 4092)
    (exec (RustChrdev.write f fl hi 4090) boot)
    = Some (Ok (4, replicate 4 x01)) ∧
  answer (RustChrdev.write f fl (hi ++ replicate 8 x01) 4090) boot
    = Some (Ok (6, replicate 4 x01)).
Proof.
  intros f fl.
  assert (Hu : is_u64 4090) by (unfold is_u64; lia).
  assert (Hfit : 4090 + Z.of_nat (length hi) < GLOBALMEM_SIZE)
    by (cbn; unfold GLOBALMEM_SIZE; lia).
  split; [exact Hu|]. split; [exact Hfit|].
  destruct (plain_write_in_two_pieces f fl hi (replicate 8 x01) 4090 boot
              Hu Hfit) as (_ & _ & n2 & rest & H2 & H12).
  vm_compute in H2. injection H2 as <- <-.
  split; [vm_compute; reflexivity|exact H12].
Defined.

(** A piece that would start exactly at the end of the buffer is refused:
    once a first piece has filled the buffer to its last byte, the write of
    the next piece fails with EINVAL, where a single write of both pieces
    succeeds and reports just the first piece as written. *)
Theorem plain_write_piece_at_end_refused f fl (d1 d2 : list byte) off s :
  is_u64 off → off < GLOBALMEM_SIZE →
  off + Z.of_nat (length d1) = GLOBALMEM_SIZE →
  let s1 := exec (RustChrdev.write f fl d1 off) s in
  answer (RustChrdev.write f fl d2 GLOBALMEM_SIZE) s1 = Some (Err EINVAL) ∧
  GLOBALMEM_BUF (exec (RustChrdev.write f fl d2 GLOBALMEM_SIZE) s1)
    = GLOBALMEM_BUF s1 ∧
  answer (RustChrdev.write f fl (d1 ++ d2) off) s
    = Some (Ok (Z.of_nat (length d1), d2)) ∧
  GLOBALMEM_BUF (exec (RustChrdev.write f fl (d1 ++ d2) off) s)
    = GLOBALMEM_BUF s1.
Proof.
  intros Hu Hlt Hend s1.
  assert (Hu2 : is_u64 GLOBALMEM_SIZE) by (unfold is_u64, GLOBALMEM_SIZE; lia).
  destruct (plain_write_alone f fl d2 GLOBALMEM_SIZE s1 Hu2) as [-> ->].
  destruct (plain_write_alone f fl (d1 ++ d2) off s Hu) as [-> ->].
  unfold s1. destruct (plain_write_alone f fl d1 off s Hu) as [-> _].
  rewrite !(decide_False (P := GLOBALMEM_SIZE < GLOBALMEM_SIZE)) by lia.
  rewrite !decide_True by done.
  rewrite length_app.
  replace (Z.min (Z.of_nat (length d1 + length d2)) (GLOBALMEM_SIZE - off))
    with (Z.of_nat (length d1)) by lia.
  replace (Z.min (Z.of_nat (length d1)) (GLOBALMEM_SIZE - off))
    with (Z.of_nat (length d1)) by lia.
  rewrite Nat2Z.id, take_app_length, drop_app_length, firstn_all.
  done.
Qed.

Lemma plain_write_piece_at_end_refused_witness :
  let f := {| inner := REF_GLOBALMEM_BUF |} in
  let fl := {| minor := 0 |} in
  is_u64 4094 ∧ 4094 < GLOBALMEM_SIZE ∧
  4094 + Z.of_nat (length hi) = GLOBALMEM_SIZE ∧
  answer (RustChrdev.write f fl [x01] GLOBALMEM_SIZE)
    (exec (RustChrdev.write f fl hi 4094) boot) = Some (Err EINVAL) ∧
  answer (RustChrdev.write f fl (hi ++ [x01]) 4094) boot
    = Some (Ok (2, [x01])).
Proof.
  intros f fl.
  assert (Hu : is_u64 4094) by (unfold is_u64; lia).
  assert (Hlt : 4094 < GLOBALMEM_SIZE) by (unfold GLOBALMEM_SIZE; lia).
  assert (Hend : 4094 + Z.of_nat (length hi) = GLOBALMEM_SIZE) by reflexivity.
  split; [exact Hu|]. split; [exact Hlt|]. split; [exact Hend|].
  destruct (plain_write_piece_at_end_refused f fl hi [x01] 4094 boot
              Hu Hlt Hend) as (H1 & _ & H2 & _).
  exact (conj H1 H2).
Defined.

(** Read-back on the plain device: after a write of [data] at a valid
    offset of a full-size buffer, a read at that offset with room for the
    data returns them as its first bytes, and reading does not use them up:
    a second read answers as the first did. *)
Theorem plain_read_back f fl fl' (data : list byte) (w : user_writer)
    off s :
  is_u64 off → off < GLOBALMEM_SIZE →
  length (GLOBALMEM_BUF s) = Z.to_nat GLOBALMEM_SIZE →
  Z.min (Z.of_nat (length data)) (GLOBALMEM_SIZE - off) <= room w →
  let n := Z.min (Z.of_nat (length data)) (GLOBALMEM_SIZE - off) in
  let s1 := exec (RustChrdev.write f fl data off) s in
  (∃ w', answer (RustChrdev.read f fl' w off) s1
           = Some (Ok (Z.min (room w) (GLOBALMEM_SIZE - off), w')) ∧
         take (Z.to_nat n) (drop (length (delivered w)) (delivered w'))
           = take (Z.to_nat n) data) ∧
  answer (RustChrdev.read f fl' w off)
    (exec (RustChrdev.read f fl' w off) s1)
    = answer (RustChrdev.read f fl' w off) s1.
Proof.
  intros Hu Hlt Hsz Hfit n s1.
  assert (Hn : 0 <= n <= GLOBALMEM_SIZE - off)
    by (destruct Hu; unfold n; lia).
  assert (Hroom : 0 <= room w) by (fold n in Hfit; lia).
  destruct (plain_read_alone f fl' w off
              (exec (RustChrdev.read f fl' w off) s1) Hu Hroom) as [_ ->].
  destruct (plain_read_alone f fl' w off s1 Hu Hroom) as [-> ->].
  split; [|done].
  rewrite decide_True by done. eexists. split; [reflexivity|].
  cbn [delivered]. rewrite drop_app_length.
  unfold s1. destruct (plain_write_alone f fl data off s Hu) as [-> _].
  rewrite decide_True by done. fold n.
  assert (Hk : length (take (Z.to_nat n) data) = Z.to_nat n)
    by (rewrite length_take; unfold n; lia).
  rewrite list_inserts_split by (rewrite Hk, Hsz; destruct Hu; lia).
  rewrite drop_app_length' by (rewrite length_take, Hsz; destruct Hu; lia).
  rewrite take_take, take_app_le by (rewrite Hk; lia).
  rewrite take_take. f_equal. fold n in Hfit. lia.
Qed.

Lemma plain_read_back_witness :
  let f := {| inner := REF_GLOBALMEM_BUF |} in
  let fl := {| minor := 0 |} in
  let w := {| room := 4096; delivered := [] |} in
  is_u64 0 ∧ 0 < GLOBALMEM_SIZE ∧
  length (GLOBALMEM_BUF boot) = Z.to_nat GLOBALMEM_SIZE ∧
  Z.min (Z.of_nat (length hi)) (GLOBALMEM_SIZE - 0) <= room w ∧
  ∃ w', answer (RustChrdev.read f fl w 0)
          (exec (RustChrdev.write f fl hi 0) boot) = Some (Ok (4096, w')) ∧
        take 2 (delivered w') = hi.
Proof.
  intros f fl w.
  assert (Hu : is_u64 0) by (unfold is_u64; lia).
  assert (Hlt : 0 < GLOBALMEM_SIZE) by (unfold GLOBALMEM_SIZE; lia).
  assert (Hsz : length (GLOBALMEM_BUF boot) = Z.to_nat GLOBALMEM_SIZE)
    by (apply length_replicate).
  assert (Hfit : Z.min (Z.of_nat (length hi)) (GLOBALMEM_SIZE - 0) <= room w)
    by (cbn; lia).
  split; [exact Hu|]. split; [exact Hlt|]. split; [exact Hsz|].
  split; [exact Hfit|].
  destruct (plain_read_back f fl fl hi w 0 boot Hu Hlt Hsz Hfit)
    as [(w' & Hans & Hpre) _].
  exists w'. split; [exact Hans|exact Hpre].
Defined.

(** ** What the operations never do *)

(** A fault of the user copy is passed on: when the [read_raw] that
    [write] calls fails, [write] returns that error with the mutex dropped
    again, the completion call having been made all the same; when the
    [write_raw] that [read] calls fails, on the bytes it finds in the
    buffer at that moment, [read] returns that error with the mutex dropped
    and the buffer as it was.  This holds for every implementation of the
    two transfer traits.  (What a faulting [read_raw] may have left in the
    buffer is outside the trait's interface and is not stated.) *)
Theorem copy_fault_is_passed_on {R W} `{!IoBufferReader R}
    `{!IoBufferWriter W} task f fl (rd : R) (w : W) off e e' :
  is_u64 off → off < GLOBALMEM_SIZE →
  read_raw rd (Z.min (reader_len rd) (GLOBALMEM_SIZE - off)) = Err e →
  (∀ s, ∃ k, write task f fl rd off s = Pause (signalled s) Lock k ∧
     ∀ s', ∃ s'', k s' = Done s'' (Err e) ∧
       trace s'' = trace s' ++ [EvLock; EvUnlock] ∧
       COMPLETION_DATA s'' = COMPLETION_DATA s') ∧
  (∀ s, always (λ s_in s_out r,
          write_raw w
            (take (Z.to_nat (Z.min (writer_len w) (GLOBALMEM_SIZE - off)))
               (drop (Z.to_nat off) (GLOBALMEM_BUF s_in))) = Err e' →
          r = Err e' ∧
          trace s_out = trace s_in ++ [EvLock; EvUnlock] ∧
          GLOBALMEM_BUF s_out = GLOBALMEM_BUF s_in)
        s (read task f fl w off s)).
Proof.
  intros Hu Hlt Hrd. split; intros s.
  - unfold write, signalled. enter_op s E.
    all: eexists; split; [reflexivity|].
    all: intros s'; rewrite (as_usize_u64 _ Hu).
    all: destruct (Z.geb_spec off GLOBALMEM_SIZE); [lia|].
    all: rewrite Hrd; eexists; split; [reflexivity|].
    all: cbn; by rewrite <- (assoc_L (++)).
  - unfold read. destruct f as [[]]. enter_op s E.
    1: intros s0; cbn.
    all: intros s'; rewrite (as_usize_u64 _ Hu).
    all: destruct (Z.geb_spec off GLOBALMEM_SIZE); [lia|].
    all: destruct (write_raw w _) as [w'|e0] eqn:Ew; cbn; intros Hwr.
    all: assert (Hsame : (Err e' : Result W) = _)
           by (rewrite <- Hwr; exact Ew).
    all: try discriminate Hsame.
    all: injection Hsame as <-.
    all: by rewrite <- (assoc_L (++)).
Qed.

Lemma copy_fault_is_passed_on_witness :
  let f := {| inner := REF_GLOBALMEM_BUF |} in
  let fl := {| minor := 0 |} in
  let u := {| announced := 8 |} in
  is_u64 0 ∧ 0 < GLOBALMEM_SIZE ∧
  read_raw u (Z.min (reader_len u) (GLOBALMEM_SIZE - 0)) = Err EFAULT ∧
  (∃ s', run_alone (write 3%nat f fl u 0 one_sleeper)
           = Some (s', Err EFAULT) ∧
         signals (trace s') = [[1%nat]]) ∧
  ∃ s', run_alone (read 1%nat f fl u 0 boot) = Some (s', Err EFAULT) ∧
        GLOBALMEM_BUF s' = GLOBALMEM_BUF boot.
Proof.
  intros f fl u.
  assert (Hu : is_u64 0) by (unfold is_u64; lia).
  assert (Hlt : 0 < GLOBALMEM_SIZE) by (unfold GLOBALMEM_SIZE; lia).
  assert (Hrd : read_raw u (Z.min (reader_len u) (GLOBALMEM_SIZE - 0))
                = Err EFAULT) by reflexivity.
  split; [exact Hu|]. split; [exact Hlt|]. split; [exact Hrd|].
  destruct (copy_fault_is_passed_on 3%nat f fl u u 0 EFAULT EFAULT
              Hu Hlt Hrd) as [Hw Hr].
  split.
  - destruct (Hw one_sleeper) as (k & Ek & Hk).
    destruct (Hk (signalled one_sleeper)) as (s'' & Es & Ht & _).
    exists s''. rewrite Ek. cbn [run_alone]. rewrite Es. cbn [run_alone].
    split; [reflexivity|]. rewrite Ht, signals_app. reflexivity.
  - destruct (always_run_alone _ _ boot _ _ (Hr boot) eq_refl)
      as (s_in & Hpost).
    eexists. split; [reflexivity|]. reflexivity.
Defined.

(** [write] never goes to sleep, and neither does [init]; [read] goes to
    sleep at most once, and not at all when it finds the pointer null.
    This holds for every implementation of the transfer traits and however
    the calls are resumed. *)
Theorem only_read_sleeps_and_once {R W} `{!IoBufferReader R}
    `{!IoBufferWriter W} task f fl (rd : R) (w : W) off h name s :
  max_sleeps 0 (write task f fl rd off s) ∧
  max_sleeps (if COMPLETION_DATA s is Some _ then 1 else 0)
    (read task f fl w off s) ∧
  max_sleeps 0 (init h name s).
Proof.
  split; [|split].
  - unfold write. enter_op s E.
    all: intros s'; destruct (as_usize off >=? GLOBALMEM_SIZE); cbn; [done|].
    all: destruct (read_raw rd _) as [[bytes rd']|e]; done.
  - unfold read. enter_op s E.
    1: intros s0; cbn.
    all: intros s'; destruct (as_usize off >=? GLOBALMEM_SIZE); cbn; [done|].
    all: destruct (write_raw w _) as [w'|e]; done.
  - unfold init, register, new_pinned, try_new, drop_registration.
    unfold_M. destruct h as [a b c]. cbn.
    destruct a; cbn; [|done].
    rewrite bool_decide_true by lia. rewrite andb_true_r.
    destruct (b 0%nat); cbn; [|done].
    rewrite bool_decide_true by lia. rewrite andb_true_r.
    destruct (b 1%nat); cbn; [|done].
    intros s'. destruct c; done.
Qed.

(** ** The discipline of the trace *)

Lemma disciplined_app held a b :
  disciplined held a → disciplined false b → disciplined held (a ++ b).
Proof.
  revert held. induction a as [|e a IH]; intros held; cbn.
  - by intros ->.
  - destruct e; intros H Hb; repeat (destruct H as [? H]);
      repeat split; auto.
Qed.

Lemma adds_disciplined_refl s : adds_disciplined s s.
Proof. exists []. by rewrite app_nil_r. Qed.

Lemma adds_disciplined_trans a b c :
  adds_disciplined a b → adds_disciplined b c → adds_disciplined a c.
Proof.
  intros (e1 & H1 & D1) (e2 & H2 & D2). exists (e1 ++ e2).
  split; [by rewrite H2, H1, (assoc_L (++))|by apply disciplined_app].
Qed.

Lemma as_usize_range x : 0 <= as_usize x < 2 ^ 64.
Proof. unfold as_usize, USIZE_BITS. apply Z.mod_pos_bound. lia. Qed.

(** Closing a goal [adds_disciplined s s'] where [s'] is [s] with events
    logged. *)
Ltac logged evs :=
  exists evs; split;
    [cbn; rewrite <- ?(assoc_L (++)); reflexivity
    |cbn; repeat split; try done; try lia].

Lemma write_disciplined task f fl (data : list byte) off s :
  stepwise adds_disciplined s (write task f fl data off s).
Proof.
  pose proof (as_usize_range off) as Hr.
  unfold write. enter_op s E.
  1: split; [logged [EvComplete (queue c)]|].
  2: split; [apply adds_disciplined_refl|].
  all: intros s'; destruct f as [[]]; cbn.
  all: destruct (Z.geb_spec (as_usize off) GLOBALMEM_SIZE); cbn;
         [logged [EvLock; EvUnlock]|].
  all: match goal with
       | |- context [?a <=? ?b] => destruct (Z.leb_spec a b)
       end; cbn; [|logged [EvLock; EvUnlock]].
  all: logged [EvLock;
               EvCopyIn (as_usize off)
                 (Z.min (Z.of_nat (length data))
                    (GLOBALMEM_SIZE - as_usize off));
               EvUnlock].
Qed.

Lemma read_disciplined task f fl (w : user_writer) off s :
  stepwise adds_disciplined s (read task f fl w off s).
Proof.
  pose proof (as_usize_range off) as Hr.
  unfold read. enter_op s E.
  1: split; [logged [EvWait task]|]; intros s0; cbn.
  all: split; [apply adds_disciplined_refl|].
  all: intros s'; destruct f as [[]]; cbn.
  all: destruct (Z.geb_spec (as_usize off) GLOBALMEM_SIZE); cbn;
         [logged [EvLock; EvUnlock]|].
  all: match goal with
       | |- context [?a <=? ?b] => destruct (Z.leb_spec a b) as [Hfit|Hfit]
       end; cbn; [|logged [EvLock; EvUnlock]].
  all: logged [EvLock;
               EvCopyOut (as_usize off)
                 (Z.min (room w) (GLOBALMEM_SIZE - as_usize off));
               EvUnlock].
Qed.

Lemma init_disciplined h name s :
  stepwise adds_disciplined s (init h name s).
Proof.
  eapply stepwise_weaken with (Rel := λ a b, trace b = trace a).
  { intros a b H. exists []. by rewrite app_nil_r. }
  unfold init, mbind, M_bind.
  assert (Htr : ∀ a b c : system,
            trace b = trace a → trace c = trace b → trace c = trace a)
    by (intros; congruence).
  apply stepwise_bind; [exact Htr| |].
  2: { unfold lift_result, new_pinned. destruct (pinned_ok h); done. }
  assert (Hreg : ∀ ok reg s0,
            stepwise (λ a b, trace b = trace a) s0 (register ok reg s0)).
  { intros ok reg s0. unfold register, drop_registration. unfold_M.
    destruct (ok && _); done. }
  intros reg0 s0. apply stepwise_bind; [exact Htr| |apply Hreg].
  intros reg1 s1. apply stepwise_bind; [exact Htr| |apply Hreg].
  intros reg2 s2. apply stepwise_bind; [exact Htr| |].
  2: { cbn. split; [done|]. by intros s'. }
  intros [] s3. unfold try_new, drop_registration. unfold_M.
  destruct (arc_ok h); done.
Qed.

Lemma code_disciplined task prog s :
  stepwise adds_disciplined s (code task prog s).
Proof.
  destruct prog as [minor count off|minor data off|h name]; cbn [code].
  - unfold sys_read. unfold mbind at 1, M_bind.
    apply stepwise_bind; [exact adds_disciplined_trans| |].
    + intros f s'. unfold mbind, M_bind.
      apply stepwise_bind;
        [exact adds_disciplined_trans| |apply read_disciplined].
      intros [n w] s''. apply adds_disciplined_refl.
    + unfold vfs_open. case_bool_decide; apply adds_disciplined_refl.
  - unfold sys_write. unfold mbind at 1, M_bind.
    apply stepwise_bind; [exact adds_disciplined_trans| |].
    + intros f s'. unfold mbind, M_bind.
      apply stepwise_bind;
        [exact adds_disciplined_trans| |apply write_disciplined].
      intros [n w] s''. apply adds_disciplined_refl.
    + unfold vfs_open. case_bool_decide; apply adds_disciplined_refl.
  - unfold load_module, mbind, M_bind.
    apply stepwise_bind;
      [exact adds_disciplined_trans| |apply init_disciplined].
    intros d s'. apply adds_disciplined_refl.
Qed.

Lemma spawn_behaves_as Rel progs :
  (∀ task prog s, stepwise Rel s (code task prog s)) →
  behaves Rel (spawn progs).
Proof.
  intros Hcode p why k Hp. cbn in Hp.
  apply elem_of_list_to_map_2 in Hp.
  apply list_elem_of_fmap in Hp as ([q prog] & [= -> -> ->] & _).
  intros s. apply Hcode.
Qed.

(** In this model a critical section is a single stretch, so the order of
    the events inside it is the order of the source lines; the lemma below
    records that order for every run, bounds of the copies included. *)
Lemma every_trace_is_disciplined progs sched m :
  run sched (spawn progs) = Some m → disciplined false (trace (sys m)).
Proof.
  intros Hrun.
  destruct (run_behaves adds_disciplined sched adds_disciplined_refl
              adds_disciplined_trans (spawn progs) m
              (spawn_behaves_as _ progs code_disciplined) Hrun)
    as [(evs & Htr & Hd) _].
  rewrite Htr. exact Hd.
Qed.

Lemma disciplined_in_bounds held tr :
  disciplined held tr → copies_in_bounds tr.
Proof.
  revert held. induction tr as [|e tr IH]; intros held Hd x Hx.
  - by apply elem_of_nil in Hx.
  - apply elem_of_cons in Hx as [->|Hx].
    + destruct e; cbn in Hd; try done; tauto.
    + destruct e; cbn in Hd; repeat (destruct Hd as [? Hd]);
        eapply IH; eauto.
Qed.

(** The unsafe copies stay inside the array.  Whatever reads, writes and
    loads the tasks issue, with whatever offsets, data and counts, and
    however they are scheduled, every raw copy into or out of the buffer
    that the trace records starts at an offset that is not negative, has a
    length that is not negative, and ends at or before byte 4096. *)
Theorem every_copy_stays_in_the_array progs sched m :
  run sched (spawn progs) = Some m → copies_in_bounds (trace (sys m)).
Proof.
  intros Hrun. eapply disciplined_in_bounds.
  exact (every_trace_is_disciplined progs sched m Hrun).
Qed.

Lemma every_copy_stays_in_the_array_witness :
  let progs := [ (0%nat, PLoad willing "completion");
                 (1%nat, PRead 0 10000 4090);
                 (2%nat, PWrite 1 (replicate 10 x01) 4090);
                 (3%nat, PRead 0 (-5) 0);
                 (4%nat, PWrite 0 hi (2 ^ 64 - 1)) ] in
  let sched := [0; 0; 1; 3; 2; 2; 4; 4; 1; 1; 3; 3]%nat in
  run sched (spawn progs) = Some (after sched (spawn progs)) ∧
  copies_in_bounds (trace (sys (after sched (spawn progs)))) ∧
  EvCopyIn 4090 6 ∈ trace (sys (after sched (spawn progs))) ∧
  EvCopyOut 4090 6 ∈ trace (sys (after sched (spawn progs))).
Proof.
  intros progs sched.
  assert (Hrun : run sched (spawn progs) = Some (after sched (spawn progs)))
    by (vm_compute; reflexivity).
  split; [exact Hrun|].
  split; [exact (every_copy_stays_in_the_array progs sched _ Hrun)|].
  split; vm_compute; repeat (first [left; reflexivity | right]).
Defined.

(** ** Loading *)

(** [init] publishes the completion as its very last step.  Run to its
    end, it succeeds exactly when the registration object, both
    registrations and the allocation of the completion succeed; it then
    leaves the two minors 0 and 1 registered and a fresh completion
    published.  In every other case it returns an error and the pointer is
    what it was.  Either way the buffer is not touched. *)
Theorem init_publishes_last h name s :
  ∃ s' r, run_alone (init h name s) = Some (s', r) ∧
    GLOBALMEM_BUF s' = GLOBALMEM_BUF s ∧
    if pinned_ok h && register_ok h 0%nat && register_ok h 1%nat && arc_ok h
    then r = Ok {| _dev := {| reg_name := name; minors_start := 0;
                              reg_N := 2; used := 2 |} |} ∧
         COMPLETION_DATA s' = Some init_completion ∧
         cdevs s' = cdevs s ++ [0; 1]%nat
    else (∃ e, r = Err e) ∧ COMPLETION_DATA s' = COMPLETION_DATA s.
Proof.
  unfold init, register, new_pinned, try_new, drop_registration.
  unfold_M. destruct h as [a b c]. cbn.
  destruct a; cbn; [|eexists _, _; split; [reflexivity|]; eauto].
  rewrite bool_decide_true by lia. rewrite andb_true_r.
  destruct (b 0%nat); cbn; [|eexists _, _; split; [reflexivity|]; eauto].
  rewrite bool_decide_true by lia. rewrite andb_true_r.
  destruct (b 1%nat); cbn; [|eexists _, _; split; [reflexivity|]; eauto].
  destruct c; cbn; eexists _, _; (split; [reflexivity|]); cbn.
  - split; [done|]. split; [done|]. split; [done|].
    by rewrite <- (assoc_L (++)).
  - eauto.
Qed.

(** The minors go live before the completion does.  When [init] reaches
    the allocation of the completion, minors 0 and 1 are registered and the
    pointer is still what it was; a [read(2)] that arrives on that state
    with a null pointer is served at once, without waiting for any write,
    from the buffer as it is. *)
Theorem read_during_load_does_not_wait h name s task minor count off :
  pinned_ok h = true → register_ok h 0%nat = true →
  register_ok h 1%nat = true →
  COMPLETION_DATA s = None → (minor = 0 ∨ minor = 1)%nat →
  is_u64 off → 0 <= count →
  ∃ k s1, init h name s = Pause s1 Alloc k ∧
    cdevs s1 = cdevs s ++ [0; 1]%nat ∧
    COMPLETION_DATA s1 = None ∧
    ∃ s2 n w, run_alone (sys_read task minor count off s1)
                = Some (s2, Ok (RetRead n w)) ∧
      read_post {| room := count; delivered := [] |} off s1 s2 (Ok (n, w)).
Proof.
  intros Ha Hb0 Hb1 Hnull Hminor Hu Hcount.
  unfold init, register, new_pinned, try_new, drop_registration.
  unfold_M. cbn. rewrite Ha. cbn.
  rewrite bool_decide_true by lia. rewrite Hb0. cbn.
  rewrite bool_decide_true by lia. rewrite Hb1. cbn.
  eexists _, _. split; [reflexivity|]. cbn.
  split; [by rewrite <- (assoc_L (++))|]. split; [exact Hnull|].
  match goal with |- context [sys_read _ _ _ _ ?s1] => set (s1' := s1) end.
  assert (Hin : minor ∈ cdevs s1').
  { cbn. rewrite <- (assoc_L (++)). apply elem_of_app. right.
    destruct Hminor as [-> | ->]; [left|right; left]. }
  pose proof (read_shape task {| inner := REF_GLOBALMEM_BUF |}
                {| minor := minor |} {| room := count; delivered := [] |}
                off s1' Hu Hcount) as Hshape.
  change (COMPLETION_DATA s1') with (COMPLETION_DATA s) in Hshape.
  rewrite Hnull in Hshape. destruct Hshape as (k & Ek & Hk).
  destruct (Hk s1') as (s2 & [[n w]|e] & Es & Hpost).
  - exists s2, n, w. split; [|exact Hpost].
    unfold sys_read, vfs_open, open, mbind, M_bind.
    rewrite bool_decide_true by done. cbn. rewrite Ek. cbn.
    rewrite Es. reflexivity.
  - destruct Hpost as (_ & _ & _ & Hpost). case_decide.
    + destruct Hpost as [Hr _]. discriminate Hr.
    + destruct Hpost as [Hr _]. discriminate Hr.
Qed.

Lemma read_during_load_does_not_wait_witness :
  pinned_ok willing = true ∧ register_ok willing 0%nat = true ∧
  register_ok willing 1%nat = true ∧ COMPLETION_DATA boot = None ∧
  (1 = 0 ∨ 1 = 1)%nat ∧ is_u64 0 ∧ 0 <= 2 ∧
  ∃ k s1, init willing "completion" boot = Pause s1 Alloc k ∧
    ∃ s2 w, run_alone (sys_read 2%nat 1 2 0 s1)
              = Some (s2, Ok (RetRead 2 w)) ∧
            delivered w = [x00; x00] ∧ signals (trace s2) = [].
Proof.
  assert (Hu : is_u64 0) by (unfold is_u64; lia).
  assert (Hc : 0 <= 2) by lia.
  split; [reflexivity|]. split; [reflexivity|]. split; [reflexivity|].
  split; [reflexivity|]. split; [by right|]. split; [exact Hu|].
  split; [exact Hc|].
  destruct (read_during_load_does_not_wait willing "completion" boot
              2%nat 1%nat 2 0 eq_refl eq_refl eq_refl eq_refl
              (or_intror eq_refl) Hu Hc)
    as (k & s1 & Ek & _ & _ & s2 & n & w & Hrun & Hpost).
  exists k, s1. split; [exact Ek|].
  injection Ek as <- _.
  vm_compute in Hrun. injection Hrun as <- <- <-.
  eexists _, _. split; [vm_compute; reflexivity|]. split; reflexivity.
Defined.

(** ** Readers without a writer *)

Lemma sys_open_refused {A} (body : RustFile → M system A) minor s :
  minor ∉ cdevs s →
  (vfs_open minor ≫= body) s = Done s (Err ENXIO).
Proof.
  intros Hout. unfold vfs_open, mbind, M_bind.
  by rewrite bool_decide_false.
Qed.

Lemma only_readers_step p m m1 :
  only_readers m → step p m = Some m1 →
  only_readers m1 ∧
  signals (trace (sys m1)) = signals (trace (sys m)) ∧
  ∀ q r, result_of q m1 = Some r →
         result_of q m = Some r ∨ r = Err ENXIO.
Proof.
  intros [Hpub Hall] Hstep. unfold step in Hstep.
  destruct (tasks m !! p) as [[why k|r]|] eqn:Hp; try discriminate.
  pose proof (Hall p _ Hp) as Hth. cbn in Hth.
  destruct why as [|q| |]; try done.
  2: { destruct Hth as [-> Hin]. cbn in Hstep.
       rewrite bool_decide_false in Hstep by tauto. discriminate. }
  destruct Hth as (minor & count & off & ->). cbn in Hstep.
  injection Hstep as <-.
  destruct (decide (minor ∈ cdevs (sys m))) as [Hin|Hout].
  - destruct (sys_read_first_segment p minor count off (sys m) Hin)
      as [k Ek].
    destruct (parked_facts p (sys m)) as (_ & _ & Hq & Htr).
    destruct Hpub as [c Hc]. rewrite Hc in Ek, Hq, Htr.
    rewrite Ek. cbn. split; [split|split].
    + cbn. unfold parked. rewrite Hc. by eexists.
    + intros q th. cbn [sys tasks].
      destruct (decide (p = q)) as [<-|Hne].
      * rewrite lookup_insert_eq. intros [= <-].
        split; [done|]. rewrite Hq. apply elem_of_app. right. by left.
      * rewrite lookup_insert_ne by done. intros Hqth.
        pose proof (Hall q th Hqth) as Hth.
        destruct th as [[|q2| |] kq|r]; try done.
        destruct Hth as [-> Hin2]. split; [done|].
        rewrite Hq. apply elem_of_app. by left.
    + rewrite Htr, signals_app. apply app_nil_r.
    + intros q r. unfold result_of. cbn [sys tasks].
      destruct (decide (p = q)) as [<-|Hne].
      * rewrite lookup_insert_eq. discriminate.
      * rewrite lookup_insert_ne by done. by left.
  - unfold sys_read. rewrite sys_open_refused by done. cbn.
    split; [split|split].
    + exact Hpub.
    + intros q th. cbn [sys tasks].
      destruct (decide (p = q)) as [<-|Hne].
      * rewrite lookup_insert_eq. by intros [= <-].
      * rewrite lookup_insert_ne by done. apply Hall.
    + done.
    + intros q r. unfold result_of. cbn [sys tasks].
      destruct (decide (p = q)) as [<-|Hne].
      * rewrite lookup_insert_eq. intros [= <-]. by right.
      * rewrite lookup_insert_ne by done. by left.
Qed.



(** ** The reference count of the completion *)

Lemma perform_keeps_count a h h1 :
  Refcount.strong h = Datatypes.S (Refcount.handles h) →
  Refcount.published h = true →
  Refcount.perform a h = Some h1 →
  Refcount.strong h1 = Datatypes.S (Refcount.handles h1) ∧
  Refcount.published h1 = true.
Proof.
  intros Hs Hp. destruct a; cbn.
  - unfold Refcount.get_completion_data. rewrite Hp. cbn.
    intros [= <-]. cbn. by rewrite Hs.
  - destruct (Refcount.handles h) as [|n] eqn:Hn; [discriminate|].
    intros [= <-]. cbn. by rewrite Hs, Hn.
Qed.

(** The published pointer stands for one count that nobody gives back.
    From the moment [init] has published the completion, whatever handles
    the file operations take with [get_completion_data] and drop again, in
    whatever order, the strong count is one more than the number of handles
    alive: it is 1 again whenever no handle is out, and it never reaches 0,
    so the completion is never freed.  Before publication
    [get_completion_data] answers [None] and counts nothing. *)
Theorem strong_count_is_handles_plus_one acts h :
  Refcount.perform_all acts (Refcount.publish Refcount.nothing) = Some h →
  Refcount.strong h = Datatypes.S (Refcount.handles h) ∧
  Refcount.published h = true ∧
  (Refcount.handles h + length (filter (λ a, a = Refcount.Put) acts)
   = length (filter (λ a, a = Refcount.Get) acts))%nat ∧
  Refcount.get_completion_data Refcount.nothing = (Refcount.nothing, false).
Proof.
  intros Hrun.
  assert (Hgen : ∀ acts h0 h1,
    Refcount.strong h0 = Datatypes.S (Refcount.handles h0) →
    Refcount.published h0 = true →
    Refcount.perform_all acts h0 = Some h1 →
    Refcount.strong h1 = Datatypes.S (Refcount.handles h1) ∧
    Refcount.published h1 = true ∧
    (Refcount.handles h1 + length (filter (λ a, a = Refcount.Put) acts)
     = Refcount.handles h0 +
       length (filter (λ a, a = Refcount.Get) acts))%nat).
  { clear. induction acts as [|a acts IH]; intros h0 h1 Hs Hp; cbn.
    - intros [= <-]. split; [done|]. split; [done|]. lia.
    - destruct (Refcount.perform a h0) as [h2|] eqn:Ha; cbn; [|discriminate].
      intros Hrest.
      destruct (perform_keeps_count a h0 h2 Hs Hp Ha) as [Hs2 Hp2].
      destruct (IH h2 h1 Hs2 Hp2 Hrest) as (H1 & H2 & H3).
      split; [done|]. split; [done|].
      destruct a; cbn in Ha.
      + unfold Refcount.get_completion_data in Ha. rewrite Hp in Ha.
        injection Ha as <-. cbn in H3.
        rewrite decide_False by done. rewrite decide_True by done.
        cbn. rewrite Nat.add_succ_r. exact H3.
      + destruct (Refcount.handles h0) as [|n] eqn:Hn; [discriminate|].
        injection Ha as <-. cbn in H3. rewrite Hn in H3. cbn in H3.
        rewrite decide_True by done. rewrite decide_False by done.
        cbn. rewrite Nat.add_succ_r. f_equal. exact H3. }
  destruct (Hgen acts (Refcount.publish Refcount.nothing) h
              eq_refl eq_refl Hrun) as (H1 & H2 & H3).
  split; [done|]. split; [done|]. split; [exact H3|reflexivity].
Qed.

Lemma strong_count_is_handles_plus_one_witness :
  let acts := [Refcount.Get; Refcount.Get; Refcount.Put; Refcount.Get;
               Refcount.Put] in
  ∃ h, Refcount.perform_all acts (Refcount.publish Refcount.nothing)
         = Some h ∧
       Refcount.handles h = 1%nat ∧ Refcount.strong h = 2%nat.
Proof.
  intros acts.
  assert (Hrun : Refcount.perform_all acts (Refcount.publish Refcount.nothing)
                 = Some {| Refcount.strong := 2; Refcount.handles := 1;
                           Refcount.published := true |}) by reflexivity.
  destruct (strong_count_is_handles_plus_one acts _ Hrun) as (Hs & _).
  eexists. split; [exact Hrun|]. split; [reflexivity|exact Hs].
Defined.

(** ** Loading and unloading the C module *)

Lemma filter_keeps_all {A} (P : A → Prop) `{!∀ x, Decision (P x)}
    (l : list A) :
  (∀ x, x ∈ l → P x) → filter P l = l.
Proof.
  induction l as [|x l IH]; intros Hall; [done|].
  rewrite filter_cons_True by (apply Hall; by left).
  f_equal. apply IH. intros y Hy. apply Hall. by right.
Qed.

(** [m_init] and [m_exit] of the C module.  If [alloc_chrdev_region]
    fails, [m_init] returns its error and the kernel holds nothing.  If it
    succeeds and [cdev_add] fails, [m_init] returns that error and the
    region stays allocated: nothing gives it back.  If both succeed,
    and the device number rebuilt from the major and the stored minor is
    the one that was allotted, the [cdev] goes live at exactly that
    number, and [m_exit] afterwards leaves the kernel as it was before the
    load.  In every case the completion has been initialised. *)
Theorem c_module_load_and_unload K err devno add k st :
  CModule.MKDEV K (CModule.MAJOR K devno) (CModule.completion_minor st)
    = devno →
  devno ∉ CModule.regions k → CModule.cdev_at k = None →
  let '(ret, k1, st1) := CModule.m_init K (err, devno) add k st in
  CDriver.completion (CModule.completion_dev st1) = init_completion ∧
  if decide (err < 0) then ret = err ∧ k1 = k
  else if decide (add = 0) then
    ret = 0 ∧ CModule.cdev_at k1 = Some devno ∧
    CModule.regions k1 = devno :: CModule.regions k ∧
    CModule.m_exit K k1 st1 = k
  else
    ret = add ∧ CModule.cdev_at k1 = None ∧
    CModule.regions k1 = devno :: CModule.regions k.
Proof.
  intros Hdev Hfresh Hnone. unfold CModule.m_init.
  destruct (Z.ltb_spec err 0); cbn.
  { rewrite decide_True by done. done. }
  destruct (Z.eqb_spec add 0); cbn; rewrite (decide_False (P := err < 0)) by lia.
  - rewrite decide_True by done. rewrite Hdev.
    split; [done|]. split; [done|]. split; [done|]. split; [done|].
    unfold CModule.m_exit. cbn. rewrite Hdev.
    rewrite decide_False by (intros Hne; by apply Hne).
    destruct k as [rs c]. cbn in *. subst c. f_equal.
    apply filter_keeps_all. intros d Hd ->. by apply Hfresh.
  - rewrite decide_False by done. done.
Qed.

Lemma c_module_load_and_unload_witness :
  let k := {| CModule.regions := [Z.shiftl 4 20];
              CModule.cdev_at := None |} in
  let devno := Z.shiftl 248 20 in
  CModule.MKDEV CModule.linux (CModule.MAJOR CModule.linux devno)
    (CModule.completion_minor CModule.statics0) = devno ∧
  (devno ∉ CModule.regions k) ∧ CModule.cdev_at k = None ∧
  (let '(ret, k1, st1) :=
     CModule.m_init CModule.linux (0, devno) 0 k CModule.statics0 in
   ret = 0 ∧ CModule.completion_major st1 = 248 ∧
   CModule.m_exit CModule.linux k1 st1 = k) ∧
  (let '(ret, k1, _) :=
     CModule.m_init CModule.linux (0, devno) (-12) k CModule.statics0 in
   ret = -12 ∧ devno ∈ CModule.regions k1).
Proof.
  intros k devno.
  assert (Hdev : CModule.MKDEV CModule.linux
                   (CModule.MAJOR CModule.linux devno)
                   (CModule.completion_minor CModule.statics0) = devno)
    by reflexivity.
  assert (Hfresh : devno ∉ CModule.regions k).
  { intros Hin. apply list_elem_of_singleton in Hin. discriminate Hin. }
  split; [exact Hdev|]. split; [exact Hfresh|]. split; [reflexivity|].
  pose proof (c_module_load_and_unload CModule.linux 0 devno 0 k
                CModule.statics0 Hdev Hfresh eq_refl) as Hok.
  pose proof (c_module_load_and_unload CModule.linux 0 devno (-12) k
                CModule.statics0 Hdev Hfresh eq_refl) as Hbad.
  split.
  - destruct (CModule.m_init CModule.linux (0, devno) 0 k CModule.statics0)
      as [[ret k1] st1] eqn:E.
    destruct Hok as (_ & Hret & _ & _ & Hexit).
    split; [exact Hret|]. split; [|exact Hexit].
    injection E as _ _ <-. reflexivity.
  - destruct (CModule.m_init CModule.linux (0, devno) (-12) k
                CModule.statics0) as [[ret k1] st1] eqn:E.
    destruct Hbad as (_ & Hret & _ & Hreg).
    split; [exact Hret|]. rewrite Hreg. by left.
Defined.

(** ** The equivalences and the sleep bound on the scenario *)

Lemma write_is_signal_then_plain_write_witness :
  same_step
    (write 3%nat {| inner := REF_GLOBALMEM_BUF |} {| minor := 0 |} hi 0
       one_sleeper)
    (RustChrdev.write {| inner := REF_GLOBALMEM_BUF |} {| minor := 0 |} hi 0
       (signalled one_sleeper)) ∧
  sleepers one_sleeper = [1%nat] ∧ sleepers (signalled one_sleeper) = [].
Proof.
  split; [|split; reflexivity].
  exact (write_is_signal_then_plain_write 3%nat
           {| inner := REF_GLOBALMEM_BUF |} {| minor := 0 |} hi 0 one_sleeper).
Defined.

Lemma read_is_wait_then_plain_read_witness :
  same_step
    (read 1%nat {| inner := REF_GLOBALMEM_BUF |} {| minor := 0 |}
       {| room := 2; delivered := [] |} 0 boot)
    (RustChrdev.read {| inner := REF_GLOBALMEM_BUF |} {| minor := 0 |}
       {| room := 2; delivered := [] |} 0 boot).
Proof.
  exact (read_is_wait_then_plain_read 1%nat
           {| inner := REF_GLOBALMEM_BUF |} {| minor := 0 |}
           {| room := 2; delivered := [] |} 0 boot).
Defined.

Lemma only_read_sleeps_and_once_witness :
  max_sleeps 0
    (write 3%nat {| inner := REF_GLOBALMEM_BUF |} {| minor := 0 |} hi 0
       one_sleeper) ∧
  max_sleeps 1
    (read 2%nat {| inner := REF_GLOBALMEM_BUF |} {| minor := 1 |}
       {| room := 2; delivered := [] |} 0 one_sleeper) ∧
  ¬ max_sleeps 0
    (read 2%nat {| inner := REF_GLOBALMEM_BUF |} {| minor := 1 |}
       {| room := 2; delivered := [] |} 0 one_sleeper).
Proof.
  destruct (only_read_sleeps_and_once 3%nat
              {| inner := REF_GLOBALMEM_BUF |} {| minor := 0 |} hi
              {| room := 2; delivered := [] |} 0 willing "completion"
              one_sleeper) as (Hw & _ & _).
  destruct (only_read_sleeps_and_once 2%nat
              {| inner := REF_GLOBALMEM_BUF |} {| minor := 1 |} hi
              {| room := 2; delivered := [] |} 0 willing "completion"
              one_sleeper) as (_ & Hr & _).
  split; [exact Hw|]. split; [exact Hr|]. intros H. exact H.
Defined.

(** ** Reading: the wait comes first *)

Lemma only_readers_run sched m m1 :
  only_readers m → run sched m = Some m1 →
  ∀ q r, result_of q m1 = Some r →
         result_of q m = Some r ∨ r = Err ENXIO.
Proof.
  revert m. induction sched as [|p sched IH]; intros m Hm; cbn.
  - intros [= <-] q r. by left.
  - destruct (step p m) as [m2|] eqn:Hstep; cbn; [|discriminate].
    intros Hrun q r Hq.
    destruct (only_readers_step p m m2 Hm Hstep) as (Hm2 & _ & Hr2).
    destruct (IH m2 Hm2 Hrun q r Hq) as [H|H]; [|by right].
    by apply Hr2.
Qed.

(** C5, as claimed, fails: with the module loaded and no writer, a read at
    offset 4096 does not return 0 bytes; it goes to sleep on the completion
    and no schedule makes it return. *)
Lemma read_past_end_sleeps_first :
  ¬ read_comes_back_empty lone_reader 1%nat.
Proof.
  intros (sched & m1 & w & Hrun & Hres).
  assert (Hm : only_readers lone_reader).
  { split; [by eexists|]. intros p th Hp. unfold lone_reader in Hp.
    cbn in Hp. apply lookup_singleton_Some in Hp as [<- <-].
    by eexists _, _, _. }
  destruct (only_readers_run sched lone_reader m1 Hm Hrun _ _ Hres)
    as [H|H]; discriminate H.
Qed.

(** C5, amended.  [read] waits first: when the completion is published
    it queues the caller and sleeps, whatever the offset, and goes on only
    when it is resumed; with a null pointer it goes straight to the mutex.
    Once past the Gate, on whatever state it then takes the mutex, a read
    at or past the capacity returns 0 bytes and hands nothing over, which is
    an end-of-data answer and no error; a read below the capacity returns
    [n = min (room of out) (capacity - offset)] and appends to [out]
    exactly the [n] bytes the buffer holds from [offset] on. *)
Theorem read_waits_then_returns_min_or_eof task f fl (w : user_writer)
    off s :
  is_u64 off → 0 <= room w →
  let n := Z.min (room w) (GLOBALMEM_SIZE - off) in
  let answers (k : M system (Z * user_writer)) :=
    ∀ s_in, ∃ s_out r, k s_in = Done s_out r ∧
      GLOBALMEM_BUF s_out = GLOBALMEM_BUF s_in ∧
      if decide (GLOBALMEM_SIZE <= off) then r = Ok (0, w)
      else
        let chunk :=
          take (Z.to_nat n) (drop (Z.to_nat off) (GLOBALMEM_BUF s_in)) in
        (∃ w', r = Ok (n, w') ∧ delivered w' = delivered w ++ chunk) ∧
        (length (GLOBALMEM_BUF s_in) = Z.to_nat GLOBALMEM_SIZE →
         Z.of_nat (length chunk) = n ∧
         ∀ i : nat, (i < Z.to_nat n)%nat →
           chunk !! i = GLOBALMEM_BUF s_in !! (Z.to_nat off + i)%nat) in
  match COMPLETION_DATA s with
  | None => ∃ k, read task f fl w off s = Pause s Lock k ∧ answers k
  | Some c =>
      ∃ k, read task f fl w off s = Pause (parked task s) (Sleep task) k ∧
           COMPLETION_DATA (parked task s)
             = Some (wait_for_completion task c) ∧
           task ∈ sleepers (parked task s) ∧
           ∀ s1, ∃ k', k s1 = Pause s1 Lock k' ∧ answers k'
  end.
Proof.
  intros Hu Hroom n answers.
  assert (Hans : ∀ k : M system (Z * user_writer),
            (∀ s', ∃ s'' r, k s' = Done s'' r ∧ read_post w off s' s'' r) →
            answers k).
  { intros k Hk s_in. destruct (Hk s_in) as (s_out & r & Ek & _ & _ & Hb & H).
    exists s_out, r. split; [exact Ek|]. split; [exact Hb|].
    destruct (decide (GLOBALMEM_SIZE <= off)).
    - rewrite decide_False in H by lia. by destruct H.
    - rewrite decide_True in H by lia. destruct H as (-> & _). fold n.
      split; [eexists; split; [reflexivity|done]|].
      intros Hsz. split.
      + rewrite length_take, length_drop, Hsz. destruct Hu. unfold n. lia.
      + intros i Hi. rewrite lookup_take_lt by done. by rewrite lookup_drop. }
  pose proof (read_shape task f fl w off s Hu Hroom) as Hshape.
  destruct (COMPLETION_DATA s) as [c|] eqn:E.
  - destruct Hshape as (k & Ek & Hk). exists k. split; [exact Ek|].
    destruct (parked_facts task s) as (_ & _ & Hq & _). rewrite E in Hq.
    split; [unfold parked; by rewrite E|].
    split; [rewrite Hq; apply elem_of_app; right; by left|].
    intros s1. destruct (Hk s1) as (k' & Ek' & Hk').
    exists k'. split; [exact Ek'|]. by apply Hans.
  - destruct Hshape as (k & Ek & Hk). exists k. split; [exact Ek|].
    by apply Hans.
Qed.

(** C5, amended, on a loaded module: task 2 reads at offset 4096 while
    task 1 is asleep; it joins the queue and sleeps, and once resumed it
    returns 0 bytes. *)
Lemma read_waits_then_returns_min_or_eof_witness :
  let f := {| inner := REF_GLOBALMEM_BUF |} in
  let fl := {| minor := 1 |} in
  let w := {| room := 16; delivered := [] |} in
  is_u64 4096 ∧ 0 <= room w ∧
  ∃ k, read 2%nat f fl w 4096 one_sleeper
         = Pause (parked 2%nat one_sleeper) (Sleep 2%nat) k ∧
       sleepers (parked 2%nat one_sleeper) = [1; 2]%nat ∧
       run_alone (read 2%nat f fl w 4096 one_sleeper) = None ∧
       ∀ s1, ∃ k', k s1 = Pause s1 Lock k' ∧
         ∀ s_in, ∃ s_out, k' s_in = Done s_out (Ok (0, w)).
Proof.
  intros f fl w.
  assert (Hu : is_u64 4096) by (unfold is_u64; lia).
  assert (Hroom : 0 <= room w) by (cbn; lia).
  split; [exact Hu|]. split; [exact Hroom|].
  pose proof (read_waits_then_returns_min_or_eof 2%nat f fl w 4096
                one_sleeper Hu Hroom) as H.
  cbv zeta in H.
  change (COMPLETION_DATA one_sleeper)
    with (Some (wait_for_completion 1 init_completion)) in H.
  destruct H as (k & Ek & _ & _ & Hk).
  exists k. split; [exact Ek|]. split; [reflexivity|].
  split; [by rewrite Ek|].
  intros s1. destruct (Hk s1) as (k' & Ek' & Hk').
  exists k'. split; [exact Ek'|].
  intros s_in. destruct (Hk' s_in) as (s_out & r & Er & _ & Hr).
  rewrite decide_True in Hr by (unfold GLOBALMEM_SIZE; lia).
  exists s_out. by rewrite Er, Hr.
Defined.

(** ** Writing and reading back: who takes the mutex first *)

(** C6, as claimed, fails: task 1 sleeps in a read of two bytes at offset
    0; task 3 writes "hi" at offset 0.  Under the schedule in which task 1,
    released by the signal of task 3, takes the mutex before task 3 does,
    the write stores its two bytes and the read returns two zero bytes. *)
Lemma released_reader_reads_stale_bytes :
  ¬ reader_gets_the_data (after [0; 0; 1]%nat demo) 3%nat 1%nat hi.
Proof.
  intros H.
  specialize (H [3; 1; 1; 3]%nat
                (after [3; 1; 1; 3]%nat (after [0; 0; 1]%nat demo))
                2 [x00; x00]).
  assert (Hbs : [x00; x00] = hi); [|discriminate Hbs].
  apply H; vm_compute; reflexivity.
Qed.

(** ** How the file operations move the completion *)

Lemma stepwise_bind_pure {S A B} (Rel : S → S → Prop) (f : A → M S B) :
  (∀ a s, ∃ b, f a s = Done s (Ok b)) →
  ∀ (st : Step S A) s, stepwise Rel s st → stepwise Rel s (bind_step f st).
Proof.
  intros Hf st. induction st as [s1 [a|e]|s1 why k IH]; intros s; cbn.
  - intros H. destruct (Hf a s1) as [b ->]. exact H.
  - done.
  - intros [H Hk]. split; [exact H|]. intros s''. apply IH, Hk.
Qed.

Lemma gate_step_refl s : gate_step s s.
Proof. by left. Qed.

(** Closing a goal [gate_step s s'] where [s'] is [s] with the mutex taken
    and dropped. *)
Ltac quiet_section :=
  left; split; [reflexivity|];
  cbn; unfold signals; rewrite ?omap_app; cbn; by rewrite ?app_nil_r.

Lemma write_gate_step task f fl (data : list byte) off s :
  stepwise gate_step s (write task f fl data off s).
Proof.
  unfold write. enter_op s E.
  1: split; [right; right; exists c; rewrite E; split; [done|];
             split; [done|]; cbn; unfold signals; rewrite omap_app; done|].
  2: split; [apply gate_step_refl|].
  all: intros s'; destruct f as [[]]; cbn.
  all: destruct (as_usize off >=? GLOBALMEM_SIZE); cbn; [quiet_section|].
  all: match goal with
       | |- context [?a <=? ?b] => destruct (a <=? b)
       end; cbn; quiet_section.
Qed.

Lemma read_gate_step task f fl (w : user_writer) off s :
  stepwise gate_step s (read task f fl w off s).
Proof.
  unfold read. enter_op s E.
  1: split; [right; left; exists c, task; rewrite E; split; [done|];
             split; [done|]; cbn; unfold signals; rewrite omap_app; cbn;
             by rewrite app_nil_r|]; intros s0; cbn.
  all: split; [apply gate_step_refl|].
  all: intros s'; destruct f as [[]]; cbn.
  all: destruct (as_usize off >=? GLOBALMEM_SIZE); cbn; [quiet_section|].
  all: match goal with
       | |- context [?a <=? ?b] => destruct (a <=? b)
       end; cbn; quiet_section.
Qed.

Lemma code_gate_step task prog s :
  file_op prog → stepwise gate_step s (code task prog s).
Proof.
  destruct prog as [minor count off|minor data off|h name]; cbn [code];
    [| |done]; intros _.
  - unfold sys_read, vfs_open, open. unfold mbind at 1, M_bind.
    case_bool_decide; cbn; [|apply gate_step_refl].
    unfold mbind, M_bind. apply stepwise_bind_pure.
    + intros [n w] s'. by eexists.
    + apply read_gate_step.
  - unfold sys_write, vfs_open, open. unfold mbind at 1, M_bind.
    case_bool_decide; cbn; [|apply gate_step_refl].
    unfold mbind, M_bind. apply stepwise_bind_pure.
    + intros [n w] s'. by eexists.
    + apply write_gate_step.
Qed.

Lemma gate_step_signals_grow a b :
  gate_step a b → ∃ sigs, signals (trace b) = signals (trace a) ++ sigs.
Proof.
  intros [[_ H]|[(c & p & _ & _ & H)|(c & _ & _ & H)]].
  - exists []. by rewrite app_nil_r.
  - exists []. by rewrite app_nil_r.
  - by eexists.
Qed.

Lemma step_elsewhere p q m m1 :
  step q m = Some m1 → q ≠ p → tasks m1 !! p = tasks m !! p.
Proof.
  unfold step. intros Hstep Hne.
  destruct (tasks m !! q) as [[why k|r]|]; try discriminate.
  destruct (can_resume why (sys m)); try discriminate.
  injection Hstep as <-.
  destruct (k (sys m)); cbn; by rewrite lookup_insert_ne.
Qed.

Lemma run_signals_grow sched m m1 :
  behaves gate_step m → run sched m = Some m1 →
  behaves gate_step m1 ∧
  ∃ sigs, signals (trace (sys m1)) = signals (trace (sys m)) ++ sigs.
Proof.
  revert m. induction sched as [|q sched IH]; intros m Hb; cbn.
  - intros [= <-]. split; [done|]. exists []. by rewrite app_nil_r.
  - destruct (step q m) as [m2|] eqn:Hstep; cbn; [|discriminate].
    intros Hrun.
    destruct (step_behaves gate_step m q m2 Hb Hstep) as [Hg Hb2].
    destruct (IH m2 Hb2 Hrun) as (Hb1 & sigs1 & H1).
    destruct (gate_step_signals_grow _ _ Hg) as (sigs2 & H2).
    split; [done|]. exists (sigs2 ++ sigs1).
    by rewrite H1, H2, (assoc_L (++)).
Qed.

(** A task asleep in its read stays where it is for as long as nothing
    signals: the other tasks' stretches either signal or keep it queued. *)
Lemma sleeper_stays_until_signal p k sched m m1 :
  behaves gate_step m →
  tasks m !! p = Some (Running (Sleep p) k) → p ∈ sleepers (sys m) →
  run sched m = Some m1 →
  signals (trace (sys m1)) = signals (trace (sys m)) →
  behaves gate_step m1 ∧
  tasks m1 !! p = Some (Running (Sleep p) k) ∧ p ∈ sleepers (sys m1).
Proof.
  revert m. induction sched as [|q sched IH]; intros m Hb Hp Hin; cbn.
  - intros [= <-] _. done.
  - destruct (step q m) as [m2|] eqn:Hstep; cbn; [|discriminate].
    intros Hrun Hsig.
    assert (Hne : q ≠ p).
    { intros ->. unfold step in Hstep. rewrite Hp in Hstep. cbn in Hstep.
      rewrite bool_decide_false in Hstep by tauto. discriminate. }
    destruct (step_behaves gate_step m q m2 Hb Hstep) as [Hg Hb2].
    destruct (run_signals_grow sched m2 m1 Hb2 Hrun) as (_ & sigs & Hgrow).
    pose proof (step_elsewhere p q m m2 Hstep Hne) as Hsame.
    assert (Hkeep : signals (trace (sys m2)) = signals (trace (sys m)) ∧
                    p ∈ sleepers (sys m2)).
    { unfold sleepers in *.
      destruct Hg as [[Hcd Hs]|[(c & p' & Ha & Hb' & Hs)|(c & Ha & Hb' & Hs)]].
      - split; [done|]. by rewrite Hcd.
      - split; [done|]. rewrite Ha in Hin. rewrite Hb'. cbn.
        apply elem_of_app. by left.
      - exfalso. rewrite Hgrow, Hs, <- (assoc_L (++)) in Hsig.
        apply (f_equal length) in Hsig. rewrite !length_app in Hsig.
        cbn in Hsig. lia. }
    destruct Hkeep as [Hs2 Hin2].
    apply (IH m2); [done|by rewrite Hsame|done|done|congruence].
Qed.

(** ** A late reader *)

(** C7. No latching.  Take a machine whose tasks run reads and writes
    (every stretch of theirs leaves the completion alone, queues a waiter or
    signals; a second load of the module is not among them).  A task that
    enters [read] once the completion is published joins the wait-queue and
    is blocked, whatever state the Gate is in at that moment, SIGNALED
    included: the signals given before are not seen.  It then remains
    blocked, with no result, under every schedule of the other tasks,
    through their waits and their critical sections, for as long as no
    further signal is given; and the first step that signals leaves it
    released and free to run.  The C [completion_read] queues in the same
    way. *)
Theorem late_reader_waits_for_next_signal m p minor count off c :
  behaves gate_step m →
  tasks m !! p = Some (Running Enter (sys_read p minor count off)) →
  minor ∈ cdevs (sys m) →
  COMPLETION_DATA (sys m) = Some c →
  (∃ m1 k, step p m = Some m1 ∧
     sys m1 = parked p (sys m) ∧
     tasks m1 = <[p := Running (Sleep p) k]> (tasks m) ∧
     COMPLETION_DATA (sys m1) = Some (wait_for_completion p c) ∧
     signals (trace (sys m1)) = signals (trace (sys m)) ∧
     is_blocked p m1 ∧ step p m1 = None ∧
     (∀ sched m2, run sched m1 = Some m2 →
        signals (trace (sys m2)) = signals (trace (sys m1)) →
        is_blocked p m2 ∧ step p m2 = None ∧ result_of p m2 = None) ∧
     (∀ sched m2 q m3, run sched m1 = Some m2 →
        signals (trace (sys m2)) = signals (trace (sys m1)) →
        step q m2 = Some m3 →
        signals (trace (sys m3)) ≠ signals (trace (sys m2)) →
        ¬ is_blocked p m3 ∧ is_Some (step p m3))) ∧
  (∀ task mn cnt data off' s,
     stepwise gate_step s (sys_read task mn cnt off' s) ∧
     stepwise gate_step s (sys_write task mn data off' s)) ∧
  (∀ s, can_resume (Sleep p) (signalled s) = true) ∧
  (∀ c0, state (complete c0).1 = SIGNALED ∧
         blocked p (wait_for_completion p (complete c0).1)) ∧
  (∀ task cnt pos dev, ∃ dev' k,
     CDriver.completion_read task cnt pos dev = Pause dev' (Sleep task) k ∧
     blocked task (CDriver.completion dev') ∧
     ∀ dev'', k dev'' = Done dev'' (Ok 0)).
Proof.
  intros Hb Hp Hminor Hpub. split; [|split; [|split; [|split]]].
  - destruct (sys_read_first_segment p minor count off (sys m) Hminor)
      as [k Ek].
    destruct (parked_facts p (sys m)) as (_ & _ & Hq & Htr).
    rewrite Hpub in Ek, Hq, Htr.
    set (m1 := {| sys := parked p (sys m);
                  tasks := <[p := Running (Sleep p) k]> (tasks m) |}).
    assert (Hstep : step p m = Some m1)
      by (unfold step; rewrite Hp; cbn; by rewrite Ek).
    assert (Hin : p ∈ sleepers (sys m1))
      by (cbn; rewrite Hq; apply elem_of_app; right; by left).
    assert (Hp1 : tasks m1 !! p = Some (Running (Sleep p) k))
      by (cbn; by rewrite lookup_insert_eq).
    destruct (step_behaves gate_step m p m1 Hb Hstep) as [_ Hb1].
    assert (Hblocked : ∀ m2, tasks m2 !! p = Some (Running (Sleep p) k) →
              p ∈ sleepers (sys m2) →
              is_blocked p m2 ∧ step p m2 = None ∧ result_of p m2 = None).
    { intros m2 Hp2 Hin2.
      assert (Hno : can_resume (Sleep p) (sys m2) = false)
        by (cbn; apply bool_decide_false; tauto).
      unfold is_blocked, step, result_of. rewrite Hp2. by rewrite Hno. }
    exists m1, k. split; [exact Hstep|]. split; [done|]. split; [done|].
    split; [cbn; unfold parked; by rewrite Hpub|].
    split; [cbn; rewrite Htr, signals_app; apply app_nil_r|].
    destruct (Hblocked m1 Hp1 Hin) as (Hbl & Hnone & _).
    split; [exact Hbl|]. split; [exact Hnone|]. split.
    + intros sched m2 Hrun Hsig.
      destruct (sleeper_stays_until_signal p k sched m1 m2 Hb1 Hp1 Hin
                  Hrun Hsig) as (_ & Hp2 & Hin2).
      by apply Hblocked.
    + intros sched m2 q m3 Hrun Hsig Hstep3 Hnew.
      destruct (sleeper_stays_until_signal p k sched m1 m2 Hb1 Hp1 Hin
                  Hrun Hsig) as (Hb2 & Hp2 & Hin2).
      assert (Hne : q ≠ p).
      { intros ->. destruct (Hblocked m2 Hp2 Hin2) as (_ & Hn & _).
        rewrite Hn in Hstep3. discriminate. }
      destruct (step_behaves gate_step m2 q m3 Hb2 Hstep3) as [Hg _].
      assert (Hempty : sleepers (sys m3) = []).
      { destruct Hg as [[_ Hs]|[(c1 & p1 & _ & _ & Hs)|(c1 & _ & Hc & _)]];
          [done|done|]. unfold sleepers. by rewrite Hc. }
      split; [by apply nobody_sleeps_nobody_blocked|].
      unfold step. rewrite (step_elsewhere p q m2 m3 Hstep3 Hne), Hp2.
      cbn. rewrite Hempty, bool_decide_true by apply not_elem_of_nil.
      by eexists.
  - intros task mn cnt data off' s. split.
    + by apply (code_gate_step task (PRead mn cnt off')).
    + by apply (code_gate_step task (PWrite mn data off')).
  - intros s. destruct (signalled_facts s) as (_ & _ & Hq & _).
    cbn. rewrite Hq. apply bool_decide_true, not_elem_of_nil.
  - intros c0. split; [done|].
    unfold blocked. cbn. by left.
  - intros task cnt pos dev. eexists _, _. split; [reflexivity|].
    split; [|done]. unfold blocked. cbn. apply elem_of_app. right. by left.
Qed.

Lemma after_a_signal_behaves : behaves gate_step after_a_signal.
Proof.
  intros p why k Hp s. cbn in Hp.
  apply lookup_insert_Some in Hp as [[<- [= <- <-]]|[_ Hp]];
    [by apply (code_gate_step 1%nat (PRead 0 2 0))|].
  apply lookup_insert_Some in Hp as [[<- [= <- <-]]|[_ Hp]];
    [by apply (code_gate_step 2%nat (PRead 1 2 0))|].
  apply lookup_singleton_Some in Hp as [<- [= <- <-]].
  by apply (code_gate_step 4%nat (PWrite 1 [x01] 4096)).
Qed.

Lemma late_reader_waits_for_next_signal_witness :
  let m := after_a_signal in
  let m1 := after [1]%nat m in
  let m2 := after [2]%nat m1 in
  let m3 := after [4]%nat m2 in
  behaves gate_step m ∧
  COMPLETION_DATA (sys m) = Some {| state := SIGNALED; queue := [] |} ∧
  signals (trace (sys m)) = [[]] ∧
  step 1%nat m = Some m1 ∧
  is_blocked 1%nat m1 ∧ signals (trace (sys m1)) = [[]] ∧
  is_blocked 1%nat m2 ∧ step 1%nat m2 = None ∧
  signals (trace (sys m2)) = [[]] ∧
  step 4%nat m2 = Some m3 ∧
  signals (trace (sys m3)) = [[]; [1; 2]%nat] ∧
  ¬ is_blocked 1%nat m3 ∧ is_Some (step 1%nat m3).
Proof.
  intros m m1 m2 m3.
  assert (Hp : tasks m !! 1%nat = Some (Running Enter (sys_read 1%nat 0 2 0)))
    by reflexivity.
  assert (Hminor : 0%nat ∈ cdevs (sys m)) by (vm_compute; left).
  assert (Hpub : COMPLETION_DATA (sys m)
                 = Some {| state := SIGNALED; queue := [] |}) by reflexivity.
  destruct (late_reader_waits_for_next_signal m 1%nat 0%nat 2 0 _
              after_a_signal_behaves Hp Hminor Hpub)
    as [(m1' & k & Hstep & _ & _ & _ & _ & Hblk & _ & Hstay & Hrel) _].
  assert (E1 : m1' = m1)
    by (unfold m1, after; cbn [run]; by rewrite Hstep).
  subst m1'.
  assert (Hrun : run [2]%nat m1 = Some m2) by reflexivity.
  assert (Hsig : signals (trace (sys m2)) = signals (trace (sys m1)))
    by reflexivity.
  assert (Hstep3 : step 4%nat m2 = Some m3) by reflexivity.
  assert (Hnew : signals (trace (sys m3)) ≠ signals (trace (sys m2)))
    by (vm_compute; discriminate).
  destruct (Hstay [2]%nat m2 Hrun Hsig) as (Hblk2 & Hnone2 & _).
  destruct (Hrel [2]%nat m2 4%nat m3 Hrun Hsig Hstep3 Hnew) as [Hfree Hgo].
  split; [exact after_a_signal_behaves|]. split; [exact Hpub|].
  split; [reflexivity|]. split; [exact Hstep|]. split; [exact Hblk|].
  split; [reflexivity|]. split; [exact Hblk2|]. split; [exact Hnone2|].
  split; [reflexivity|]. split; [exact Hstep3|]. split; [reflexivity|].
  split; [exact Hfree|exact Hgo].
Defined.

(** ** One buffer, one completion *)

Lemma stepwise_and {S A} (R1 R2 : S → S → Prop) (st : Step S A) s :
  stepwise R1 s st → stepwise R2 s st →
  stepwise (λ a b, R1 a b ∧ R2 a b) s st.
Proof.
  revert s. induction st as [s1 r|s1 why k IH]; intros s; cbn.
  - by split.
  - intros [H1 K1] [H2 K2]. split; [by split|].
    intros s''. by apply IH.
Qed.

Lemma keeps_statics_refl s : keeps_statics s s.
Proof. by split. Qed.

Lemma write_keeps_statics task f fl (data : list byte) off s :
  stepwise keeps_statics s (write task f fl data off s).
Proof.
  unfold write. enter_op s E.
  all: split; [by split|].
  all: intros s'; destruct f as [[]]; cbn.
  all: destruct (as_usize off >=? GLOBALMEM_SIZE); cbn; [by split|].
  all: match goal with
       | |- context [?a <=? ?b] => destruct (a <=? b)
       end; cbn; [|by split].
  all: split; cbn; [done|apply length_inserts].
Qed.

Lemma read_keeps_statics task f fl (w : user_writer) off s :
  stepwise keeps_statics s (read task f fl w off s).
Proof.
  unfold read. enter_op s E.
  1: split; [by split|]; intros s0; cbn.
  all: split; [by split|].
  all: intros s'; destruct f as [[]]; cbn.
  all: destruct (as_usize off >=? GLOBALMEM_SIZE); cbn; [by split|].
  all: match goal with
       | |- context [?a <=? ?b] => destruct (a <=? b)
       end; cbn; by split.
Qed.

Lemma code_file_step task prog s :
  file_op prog → stepwise file_step s (code task prog s).
Proof.
  intros Hop. apply stepwise_and; [by apply code_gate_step|].
  destruct prog as [minor count off|minor data off|h name]; cbn [code];
    [| |done].
  - unfold sys_read, vfs_open, open. unfold mbind at 1, M_bind.
    case_bool_decide; cbn; [|apply keeps_statics_refl].
    unfold mbind, M_bind. apply stepwise_bind_pure.
    + intros [n w] s'. by eexists.
    + apply read_keeps_statics.
  - unfold sys_write, vfs_open, open. unfold mbind at 1, M_bind.
    case_bool_decide; cbn; [|apply keeps_statics_refl].
    unfold mbind, M_bind. apply stepwise_bind_pure.
    + intros [n w] s'. by eexists.
    + apply write_keeps_statics.
Qed.

(** The first stretch of a load that starts with no minor registered: it
    fails at once and leaves the statics as they were, or it stops at the
    allocation of the completion with minors 0 and 1 registered and the
    pointer not yet written. *)
Lemma load_first_stretch h name s :
  cdevs s = [] →
  (∃ s' e, load_module h name s = Done s' (Err e) ∧
     GLOBALMEM_BUF s' = GLOBALMEM_BUF s ∧
     COMPLETION_DATA s' = COMPLETION_DATA s ∧ cdevs s' = []) ∨
  (∃ s1 k, load_module h name s = Pause s1 Alloc k ∧
     GLOBALMEM_BUF s1 = GLOBALMEM_BUF s ∧
     COMPLETION_DATA s1 = COMPLETION_DATA s ∧ cdevs s1 = [0; 1]%nat ∧
     finishes_load k).
Proof.
  intros Hc.
  unfold load_module, init, register, new_pinned, try_new, drop_registration.
  unfold_M. destruct h as [a b c]. cbn.
  destruct a; cbn; [|left; eexists _, _; by repeat split].
  rewrite bool_decide_true by lia. rewrite andb_true_r.
  destruct (b 0%nat); cbn.
  2: { left. eexists _, _. split; [reflexivity|]. cbn. by rewrite Hc. }
  rewrite bool_decide_true by lia. rewrite andb_true_r.
  destruct (b 1%nat); cbn.
  2: { left. eexists _, _. split; [reflexivity|]. cbn. rewrite Hc.
       by repeat split. }
  right. eexists _, _. split; [reflexivity|]. cbn. rewrite Hc.
  split; [done|]. split; [done|]. split; [done|].
  intros s' Hc'. destruct c; cbn; eexists _, _; (split; [reflexivity|]); cbn.
  - split; [done|]. split; [by eexists|]. by split.
  - rewrite Hc'. by repeat split.
Qed.

Lemma gate_step_null a b :
  gate_step a b → COMPLETION_DATA a = None → COMPLETION_DATA b = None.
Proof.
  intros [[H _]|[(c & p & H & _)|(c & H & _)]] Hn; congruence.
Qed.

Lemma gate_step_some a b :
  gate_step a b → is_Some (COMPLETION_DATA a) → is_Some (COMPLETION_DATA b).
Proof.
  intros [[H _]|[(c & p & _ & H & _)|(c & _ & H & _)]] Hs;
    rewrite H; [done|by eexists..].
Qed.

(** A stretch of a file operation leaves a load where it stands. *)
Lemma loader_at_file_step h name t a b :
  file_step a b → loader_at h name t a → loader_at h name t b.
Proof.
  intros [Hg [Hc _]]. unfold loader_at.
  destruct t as [[why k|[v|e]]|]; rewrite ?Hc; [| | |done].
  - intros [Hn H]. split; [by eapply gate_step_null|exact H].
  - intros (Hd & Hs & H). split; [done|].
    split; [by eapply gate_step_some|done].
  - intros [Hn H]. split; [by eapply gate_step_null|exact H].
Qed.

Lemma spawn_one_loader L h name rest :
  Forall (λ pp : pid * program, file_op pp.2) rest →
  one_loader L h name (spawn ((L, PLoad h name) :: rest)).
Proof.
  intros Hrest. split; [reflexivity|]. split.
  - intros q why k Hne Hq s. cbn in Hq.
    rewrite lookup_insert_ne in Hq by done.
    apply elem_of_list_to_map_2 in Hq.
    apply list_elem_of_fmap in Hq as ([p prog] & [= -> -> ->] & Hin).
    apply code_file_step.
    rewrite Forall_forall in Hrest. exact (Hrest _ Hin).
  - cbn. rewrite lookup_insert_eq. cbn. split; [done|]. left. by split.
Qed.

(** One step of a machine with one loader.  A step of another task is a
    stretch of a file operation.  A step of the loader starts with a null
    pointer and ends with a null pointer, or with the fresh completion
    stored and the load returned. *)
Lemma one_loader_step L h name m q m' :
  one_loader L h name m → step q m = Some m' →
  one_loader L h name m' ∧
  (q ≠ L → file_step (sys m) (sys m')) ∧
  (q = L → COMPLETION_DATA (sys m) = None ∧
     (COMPLETION_DATA (sys m') = None ∨
      COMPLETION_DATA (sys m') = Some init_completion ∧
      ∃ d, result_of L m' = Some (Ok (RetInit d)))).
Proof.
  intros (Hlen & Hothers & HL). unfold step.
  destruct (tasks m !! q) as [[why k|r]|] eqn:Hq; try discriminate.
  destruct (can_resume why (sys m)); try discriminate.
  intros [= <-]. destruct (decide (q = L)) as [->|Hne].
  - rewrite Hq in HL. destruct HL as [Hnull Hphase].
    assert (Hkeep : ∀ st, (∀ p why' k', p ≠ L →
              tasks (settle L st (tasks m)) !! p = Some (Running why' k') →
              ∀ s, stepwise file_step s (k' s))).
    { intros st p why' k' Hp. destruct st; cbn;
        rewrite lookup_insert_ne by done; by apply Hothers. }
    destruct Hphase as [[Hc ->]|[Hc Hfin]].
    + destruct (load_first_stretch h name (sys m) Hc)
        as [(s' & e & -> & Hb & Hcd & Hc')|(s1 & k & -> & Hb & Hcd & Hc' & Hk)].
      * split; [|split; [done|]].
        -- split; [cbn; by rewrite Hb|]. split; [apply Hkeep|].
           cbn. rewrite lookup_insert_eq. cbn. split; congruence.
        -- intros _. split; [done|]. left. cbn. congruence.
      * split; [|split; [done|]].
        -- split; [cbn; by rewrite Hb|]. split; [apply Hkeep|].
           cbn. rewrite lookup_insert_eq. cbn.
           split; [congruence|]. right. by split.
        -- intros _. split; [done|]. left. cbn. congruence.
    + destruct (Hfin (sys m) Hc) as (s' & [v|e] & -> & Hb & Hr).
      * destruct Hr as ([d ->] & Hcd & Hc').
        split; [|split; [done|]].
        -- split; [cbn; by rewrite Hb|]. split; [apply Hkeep|].
           cbn. rewrite lookup_insert_eq. cbn.
           split; [by eexists|]. split; [by rewrite Hcd|done].
        -- intros _. split; [done|]. right. cbn. split; [done|].
           exists d. unfold result_of. cbn. by rewrite lookup_insert_eq.
      * destruct Hr as [Hcd Hc'].
        split; [|split; [done|]].
        -- split; [cbn; by rewrite Hb|]. split; [apply Hkeep|].
           cbn. rewrite lookup_insert_eq. cbn. split; congruence.
        -- intros _. split; [done|]. left. cbn. congruence.
  - pose proof (Hothers q why k Hne Hq (sys m)) as Hk.
    assert (Hstep : file_step (sys m) (sys (settle q (k (sys m)) (tasks m))))
      by (destruct (k (sys m)); cbn in *; tauto).
    split; [|split; [done|by intros ->]].
    split; [|split].
    + destruct Hstep as [_ [_ Hl]]. by rewrite Hl.
    + intros p why' k' Hp. destruct (k (sys m)) as [s' r|s' why1 k1]; cbn.
      * destruct (decide (q = p)) as [<-|Hqp].
        -- rewrite lookup_insert_eq. discriminate.
        -- rewrite lookup_insert_ne by done. by apply Hothers.
      * destruct (decide (q = p)) as [<-|Hqp].
        -- rewrite lookup_insert_eq. intros [= <- <-]. apply Hk.
        -- rewrite lookup_insert_ne by done. by apply Hothers.
    + eapply loader_at_file_step; [exact Hstep|].
      destruct (k (sys m)); cbn; by rewrite lookup_insert_ne.
Qed.

Lemma one_loader_run L h name sched :
  ∀ m m', one_loader L h name m → run sched m = Some m' →
          one_loader L h name m'.
Proof.
  induction sched as [|q sched IH]; intros m m' Hinv; cbn.
  - by intros [= <-].
  - destruct (step q m) as [m1|] eqn:Hstep; cbn; [|discriminate].
    apply IH. by destruct (one_loader_step L h name m q m1 Hinv Hstep).
Qed.




(** Once the completion is there, every task still running is in a read or
    a write: the load has returned. *)
Lemma published_machine_behaves L h name rest sched m :
  Forall (λ pp : pid * program, file_op pp.2) rest →
  run sched (spawn ((L, PLoad h name) :: rest)) = Some m →
  is_Some (COMPLETION_DATA (sys m)) →
  behaves gate_step m.
Proof.
  intros Hrest Hrun [c Hc].
  destruct (one_loader_run L h name sched _ m
              (spawn_one_loader L h name rest Hrest) Hrun)
    as (_ & Hothers & HL).
  intros p why k Hp s. destruct (decide (p = L)) as [->|Hne].
  - rewrite Hp in HL. destruct HL as [Hn _]. congruence.
  - eapply stepwise_weaken; [|by eapply Hothers]. by intros a b [Hg _].
Qed.
